(** * Log redaction: [filter_datum] and [RedactingFormatter]

    A shallow embedding of [0x00-personal_data/filtered_logger.py].

    The program builds a regular expression from the field names and the
    separator, and hands it to [re.sub] together with a replacement template
    built from the redaction token.  What the program does is therefore
    decided by three things, all modelled below:

    - the pattern and template texts the two lambdas of [patterns] build;
    - how Python's [re] reads these texts (module [Re]: the pattern syntax,
      the template syntax, backtracking matching and [re.sub]'s scan);
    - the envelope [logging.Formatter.format] renders for [FORMAT].

    [get_logger], [get_db] and [main] are embedded over the part of
    [logging] they use (module [Logging]: named loggers, their handlers,
    what is written to standard error) and over a MySQL server given by its
    answers (module [MySQL]).

    Python strings are lists of characters ([str]).  A call either returns,
    raises, or leaves the fragment of [re] that is modelled ([Unmodelled]);
    nothing is claimed about the last case. *)

From Stdlib Require Import String Ascii List Bool Arith Lia.
Import ListNotations.

Local Open Scope char_scope.
Local Open Scope list_scope.

(** ** Strings *)

Definition str := list ascii.

(** A Python string literal. *)
Definition py (s : string) : str := list_ascii_of_string s.

Definition code (c : ascii) : nat := nat_of_ascii c.

Definition mem (c : ascii) (s : str) : bool := existsb (Ascii.eqb c) s.

(** [sep.join(parts)] *)
Fixpoint join (sep : str) (parts : list str) : str :=
  match parts with
  | [] => []
  | [p] => p
  | p :: ps => p ++ sep ++ join sep ps
  end.

(** [s.ljust(width)], what [%-15s] does to its argument. *)
Definition ljust (width : nat) (s : str) : str :=
  s ++ repeat " " (width - length s).

(** [s.startswith(p)] *)
Fixpoint startswith (p s : str) : bool :=
  match p, s with
  | [], _ => true
  | _ :: _, [] => false
  | a :: p', b :: s' => (a =? b) && startswith p' s'
  end.

(** ** Outcomes of a call *)

Inductive exn : Type :=
| ReError      (* re.error *)
| IndexError   (* unknown group name in a template *)
| TypeError.   (* arguments that do not fit the message of a record *)

Inductive outcome (A : Type) : Type :=
| Returns (a : A)
| Raises (e : exn)
| Unmodelled.

Arguments Returns {A} a.
Arguments Raises {A} e.
Arguments Unmodelled {A}.

Definition bind {A B : Type} (x : outcome A) (f : A -> outcome B) : outcome B :=
  match x with
  | Returns a => f a
  | Raises e => Raises e
  | Unmodelled => Unmodelled
  end.

Notation "x <- e1 ;; e2" := (bind e1 (fun x => e2))
  (at level 61, e1 at next level, right associativity).

Definition omap {A B : Type} (f : A -> B) (x : outcome A) : outcome B :=
  a <- x ;; Returns (f a).

(** ** The fragment of Python's [re] the program relies on *)

Module Re.

(** *** Abstract syntax *)

Inductive set_item : Type :=
| SChar (c : ascii)
| SRange (lo hi : ascii).

Inductive regex : Type :=
| Eps
| Chr (c : ascii)
| Dot
| Cls (negate : bool) (items : list set_item)
| Cat (r1 r2 : regex)
| Alt (r1 r2 : regex)
| Grp (g : option nat) (r : regex)   (* [Some n]: capturing group n *)
| Star (r : regex)
| Plus (r : regex)
| Opt (r : regex).

Record compiled : Type := {
  c_regex : regex;
  c_groups : nat;                   (* number of capturing groups *)
  c_names : list (str * nat)        (* groupindex *)
}.

(** *** Character tests *)

Definition SPECIAL_CHARS : str := py ".\[{()*+?^$|".

Definition special (c : ascii) : bool := mem c SPECIAL_CHARS.

Definition is_digit (c : ascii) : bool :=
  ((48 <=? code c) && (code c <=? 57))%nat.

Definition is_ascii_letter (c : ascii) : bool :=
  (((65 <=? code c) && (code c <=? 90)) || ((97 <=? code c) && (code c <=? 122)))%nat.

Definition is_alnum (c : ascii) : bool := is_ascii_letter c || is_digit c.

(** [name.isidentifier()] for a name of ASCII characters. *)
Definition ident_start (c : ascii) : bool := is_ascii_letter c || (c =? "_").
Definition ident_char (c : ascii) : bool := is_alnum c || (c =? "_").
Definition is_ascii (c : ascii) : bool := (code c <? 128)%nat.

Definition is_identifier (name : str) : bool :=
  match name with
  | [] => false
  | c :: cs => ident_start c && forallb ident_char cs
  end.

Fixpoint lookup_name (name : str) (names : list (str * nat)) : option nat :=
  match names with
  | [] => None
  | (n, g) :: rest =>
      if list_eq_dec ascii_dec name n then Some g else lookup_name name rest
  end.

(** *** Reading a pattern

    The reader consumes the pattern one character at a time.  [frame] is a
    group being read: the alternatives finished so far and the items of the
    current one, both most recent first. *)

Record frame : Type := {
  fr_group : option nat;
  fr_alts : list regex;
  fr_seq : list regex
}.

Inductive mode : Type :=
| Normal
| Escape                                  (* after a backslash *)
| GroupOpen                               (* after an opening parenthesis *)
| GroupQ                                  (* ... followed by a question mark *)
| GroupP                                  (* ... followed by P *)
| GroupName (acc : str)                   (* ... followed by <, name so far *)
| SetOpen                                 (* after an opening bracket *)
| SetFresh (neg : bool) (items : list set_item)
| SetFreshEsc (neg : bool) (items : list set_item)
| SetHave (neg : bool) (items : list set_item) (c : ascii)
| SetDash (neg : bool) (items : list set_item) (c : ascii)
| SetDashEsc (neg : bool) (items : list set_item) (c : ascii).

Record pstate : Type := {
  ps_mode : mode;
  ps_top : frame;
  ps_stack : list frame;
  ps_groups : nat;
  ps_names : list (str * nat)
}.

Definition seq_regex (items : list regex) : regex :=
  fold_left (fun acc r => Cat r acc) items Eps.

Definition alt_regex (alts : list regex) (last : regex) : regex :=
  fold_left (fun acc r => Alt r acc) alts last.

Definition close_frame (f : frame) : regex :=
  alt_regex (fr_alts f) (seq_regex (fr_seq f)).

Definition set_mode (m : mode) (st : pstate) : pstate :=
  {| ps_mode := m; ps_top := ps_top st; ps_stack := ps_stack st;
     ps_groups := ps_groups st; ps_names := ps_names st |}.

Definition set_top (f : frame) (st : pstate) : pstate :=
  {| ps_mode := Normal; ps_top := f; ps_stack := ps_stack st;
     ps_groups := ps_groups st; ps_names := ps_names st |}.

(** Append an item to the alternative being read. *)
Definition push_item (r : regex) (st : pstate) : pstate :=
  set_top {| fr_group := fr_group (ps_top st);
             fr_alts := fr_alts (ps_top st);
             fr_seq := r :: fr_seq (ps_top st) |} st.

(** A bar ends the alternative being read. *)
Definition next_alt (st : pstate) : pstate :=
  set_top {| fr_group := fr_group (ps_top st);
             fr_alts := seq_regex (fr_seq (ps_top st)) :: fr_alts (ps_top st);
             fr_seq := [] |} st.

Definition open_group (g : option nat) (st : pstate) : pstate :=
  {| ps_mode := Normal;
     ps_top := {| fr_group := g; fr_alts := []; fr_seq := [] |};
     ps_stack := ps_top st :: ps_stack st;
     ps_groups := match g with Some n => n | None => ps_groups st end;
     ps_names := ps_names st |}.

Definition open_named (name : str) (st : pstate) : pstate :=
  let n := S (ps_groups st) in
  {| ps_mode := Normal;
     ps_top := {| fr_group := Some n; fr_alts := []; fr_seq := [] |};
     ps_stack := ps_top st :: ps_stack st;
     ps_groups := n;
     ps_names := (name, n) :: ps_names st |}.

Definition close_group (st : pstate) : outcome pstate :=
  match ps_stack st with
  | [] => Raises ReError                   (* unbalanced parenthesis *)
  | parent :: rest =>
      Returns
        {| ps_mode := Normal;
           ps_top := {| fr_group := fr_group parent;
                        fr_alts := fr_alts parent;
                        fr_seq := Grp (fr_group (ps_top st)) (close_frame (ps_top st))
                                  :: fr_seq parent |};
           ps_stack := rest;
           ps_groups := ps_groups st;
           ps_names := ps_names st |}
  end.

Definition is_repeat (r : regex) : bool :=
  match r with
  | Star _ | Plus _ | Opt _ => true
  | _ => false
  end.

Fixpoint nullable (r : regex) : bool :=
  match r with
  | Eps => true
  | Chr _ | Dot | Cls _ _ => false
  | Cat r1 r2 => nullable r1 && nullable r2
  | Alt r1 r2 => nullable r1 || nullable r2
  | Grp _ r1 => nullable r1
  | Star _ | Opt _ => true
  | Plus r1 => nullable r1
  end.

Fixpoint captures (r : regex) : bool :=
  match r with
  | Eps | Chr _ | Dot | Cls _ _ => false
  | Cat r1 r2 | Alt r1 r2 => captures r1 || captures r2
  | Grp (Some _) _ => true
  | Grp None r1 => captures r1
  | Star r1 | Plus r1 | Opt r1 => captures r1
  end.

Definition repeat_of (q : ascii) (r : regex) : regex :=
  if q =? "*" then Star r else if q =? "+" then Plus r else Opt r.

(** A quantifier applies to the last item read.  Lazy and possessive
    quantifiers, and repeats of items that can match the empty string or
    that capture, are left out of the model. *)
Definition quantify (q : ascii) (st : pstate) : outcome pstate :=
  match fr_seq (ps_top st) with
  | [] => Raises ReError                   (* nothing to repeat *)
  | r :: rs =>
      if is_repeat r then
        if q =? "*" then Raises ReError    (* multiple repeat *)
        else Unmodelled
      else if nullable r || captures r then Unmodelled
      else Returns (set_top {| fr_group := fr_group (ps_top st);
                               fr_alts := fr_alts (ps_top st);
                               fr_seq := repeat_of q r :: rs |} st)
  end.

Definition step_normal (st : pstate) (c : ascii) : outcome pstate :=
  if c =? "\" then Returns (set_mode Escape st)
  else if c =? "(" then Returns (set_mode GroupOpen st)
  else if c =? ")" then close_group st
  else if c =? "|" then Returns (next_alt st)
  else if (c =? "*") || (c =? "+") || (c =? "?") then quantify c st
  else if c =? "[" then Returns (set_mode SetOpen st)
  else if c =? "." then Returns (push_item Dot st)
  else if (c =? "^") || (c =? "$") || (c =? "{") then Unmodelled
  else Returns (push_item (Chr c) st).

Definition close_set (neg : bool) (items : list set_item) (st : pstate) : pstate :=
  push_item (Cls neg (rev items)) st.

Definition step_set_fresh (neg : bool) (items : list set_item)
    (st : pstate) (c : ascii) : outcome pstate :=
  if (c =? "]") && negb (match items with [] => true | _ => false end)
  then Returns (close_set neg items st)
  else if c =? "\" then Returns (set_mode (SetFreshEsc neg items) st)
  else Returns (set_mode (SetHave neg items c) st).

Definition add_range (neg : bool) (items : list set_item) (lo hi : ascii)
    (st : pstate) : outcome pstate :=
  if (code hi <? code lo)%nat then Raises ReError      (* bad character range *)
  else Returns (set_mode (SetFresh neg (SRange lo hi :: items)) st).

Definition step (st : pstate) (c : ascii) : outcome pstate :=
  match ps_mode st with
  | Normal => step_normal st c
  | Escape =>
      if is_alnum c then Unmodelled
      else Returns (push_item (Chr c) st)
  | GroupOpen =>
      if c =? "?" then Returns (set_mode GroupQ st)
      else step_normal (open_group (Some (S (ps_groups st))) st) c
  | GroupQ =>
      if c =? "P" then Returns (set_mode GroupP st)
      else if c =? ":" then Returns (open_group None st)
      else Unmodelled
  | GroupP =>
      if c =? "<" then Returns (set_mode (GroupName []) st)
      else if c =? "=" then Unmodelled
      else Raises ReError                  (* unknown extension *)
  | GroupName acc =>
      if c =? "\" then Unmodelled
      else if c =? ">" then
        let name := rev acc in
        if negb (forallb is_ascii name) then Unmodelled
        else if negb (is_identifier name) then Raises ReError
        else match lookup_name name (ps_names st) with
             | Some _ => Raises ReError    (* redefinition of group name *)
             | None => Returns (open_named name st)
             end
      else Returns (set_mode (GroupName (c :: acc)) st)
  | SetOpen =>
      if c =? "^" then Returns (set_mode (SetFresh true []) st)
      else step_set_fresh false [] st c
  | SetFresh neg items => step_set_fresh neg items st c
  | SetFreshEsc neg items =>
      if is_alnum c then Unmodelled
      else Returns (set_mode (SetHave neg items c) st)
  | SetHave neg items lo =>
      if c =? "-" then Returns (set_mode (SetDash neg items lo) st)
      else step_set_fresh neg (SChar lo :: items) st c
  | SetDash neg items lo =>
      if c =? "]" then Returns (close_set neg (SChar "-" :: SChar lo :: items) st)
      else if c =? "\" then Returns (set_mode (SetDashEsc neg items lo) st)
      else add_range neg items lo c st
  | SetDashEsc neg items lo =>
      if is_alnum c then Unmodelled
      else add_range neg items lo c st
  end.

Fixpoint read (st : pstate) (s : str) : outcome pstate :=
  match s with
  | [] => Returns st
  | c :: s' => st' <- step st c ;; read st' s'
  end.

Definition initial : pstate :=
  {| ps_mode := Normal;
     ps_top := {| fr_group := None; fr_alts := []; fr_seq := [] |};
     ps_stack := [];
     ps_groups := 0;
     ps_names := [] |}.

(** At the end of the pattern every group must be closed, and no escape,
    group header or character set may be pending. *)
Definition finish (st : pstate) : outcome compiled :=
  match ps_mode st, ps_stack st with
  | Normal, [] =>
      Returns {| c_regex := close_frame (ps_top st);
                 c_groups := ps_groups st;
                 c_names := ps_names st |}
  | _, _ => Raises ReError
  end.

(** [re.compile(pattern)] *)
Definition compile (pattern : str) : outcome compiled :=
  st <- read initial pattern ;; finish st.

(** *** Matching

    Backtracking, in the order [re] tries things: the alternatives of a
    branch from left to right, a greedy repeat as far as it goes before
    giving back.  [k] is what remains to be matched after the current
    node; a capture records the text its group consumed. *)

Definition caps := list (nat * str).
Definition cont := str -> caps -> option (str * caps).

Definition in_item (x : ascii) (it : set_item) : bool :=
  match it with
  | SChar c => x =? c
  | SRange lo hi => ((code lo <=? code x) && (code x <=? code hi))%nat
  end.

Definition in_set (x : ascii) (items : list set_item) : bool :=
  existsb (in_item x) items.

Definition newline : ascii := ascii_of_nat 10.

Fixpoint star_loop (body : str -> caps -> cont -> option (str * caps))
    (k : cont) (n : nat) (s : str) (cs : caps) : option (str * caps) :=
  match n with
  | 0 => k s cs
  | S n' =>
      match body s cs (fun s' cs' => star_loop body k n' s' cs') with
      | Some m => Some m
      | None => k s cs
      end
  end.

Fixpoint rmatch (r : regex) (s : str) (cs : caps) (k : cont)
    {struct r} : option (str * caps) :=
  match r with
  | Eps => k s cs
  | Chr c =>
      match s with
      | x :: s' => if x =? c then k s' cs else None
      | [] => None
      end
  | Dot =>
      match s with
      | x :: s' => if x =? newline then None else k s' cs
      | [] => None
      end
  | Cls neg items =>
      match s with
      | x :: s' => if xorb neg (in_set x items) then k s' cs else None
      | [] => None
      end
  | Cat r1 r2 => rmatch r1 s cs (fun s' cs' => rmatch r2 s' cs' k)
  | Alt r1 r2 =>
      match rmatch r1 s cs k with
      | Some m => Some m
      | None => rmatch r2 s cs k
      end
  | Grp g r1 =>
      rmatch r1 s cs (fun s' cs' =>
        k s' match g with
             | Some n => (n, firstn (length s - length s') s) :: cs'
             | None => cs'
             end)
  | Star r1 => star_loop (rmatch r1) k (length s) s cs
  | Plus r1 =>
      rmatch r1 s cs (fun s' cs' => star_loop (rmatch r1) k (length s') s' cs')
  | Opt r1 =>
      match rmatch r1 s cs k with
      | Some m => Some m
      | None => k s cs
      end
  end.

(** A match of the whole pattern starting exactly at the head of [s]:
    the text left after it, and the captures. *)
Definition match_here (p : compiled) (s : str) : option (str * caps) :=
  rmatch (c_regex p) s [] (fun s' cs' => Some (s', cs')).

(** *** Replacement templates *)

Inductive titem : Type :=
| TLit (c : ascii)
| TGroup (g : nat).

Inductive tmode : Type :=
| TNormal
| TEscape                 (* after a backslash *)
| TG                      (* after backslash g *)
| TName (acc : str).      (* after backslash g <, name so far *)

Record tstate : Type := {
  ts_mode : tmode;
  ts_items : list titem   (* most recent first *)
}.

Definition tlit (cs : list ascii) (st : tstate) : tstate :=
  {| ts_mode := TNormal; ts_items := map TLit (rev cs) ++ ts_items st |}.

Definition tmode_set (m : tmode) (st : tstate) : tstate :=
  {| ts_mode := m; ts_items := ts_items st |}.

Definition tstep (names : list (str * nat)) (st : tstate) (c : ascii)
    : outcome tstate :=
  match ts_mode st with
  | TNormal =>
      if c =? "\" then Returns (tmode_set TEscape st)
      else Returns (tlit [c] st)
  | TEscape =>
      if c =? "g" then Returns (tmode_set TG st)
      else if c =? "\" then Returns (tlit ["\"] st)
      else if is_alnum c then Unmodelled
      else Returns (tlit ["\"; c] st)
  | TG =>
      if c =? "<" then Returns (tmode_set (TName []) st)
      else Raises ReError                  (* missing < *)
  | TName acc =>
      if c =? "\" then Unmodelled
      else if c =? ">" then
        let name := rev acc in
        match lookup_name name names with
        | Some g => Returns {| ts_mode := TNormal;
                               ts_items := TGroup g :: ts_items st |}
        | None =>
            match name with
            | [] => Raises ReError         (* missing group name *)
            | _ => if forallb is_ascii name && is_identifier name
                   then Raises IndexError  (* unknown group name *)
                   else Unmodelled
            end
        end
      else Returns (tmode_set (TName (c :: acc)) st)
  end.

Fixpoint tread (names : list (str * nat)) (st : tstate) (s : str)
    : outcome tstate :=
  match s with
  | [] => Returns st
  | c :: s' => st' <- tstep names st c ;; tread names st' s'
  end.

Definition tfinish (st : tstate) : outcome (list titem) :=
  match ts_mode st with
  | TNormal => Returns (rev (ts_items st))
  | _ => Raises ReError
  end.

Definition compile_template (names : list (str * nat)) (repl : str)
    : outcome (list titem) :=
  st <- tread names {| ts_mode := TNormal; ts_items := [] |} repl ;;
  tfinish st.

Fixpoint group_text (g : nat) (cs : caps) : str :=
  match cs with
  | [] => []
  | (n, t) :: rest => if (n =? g)%nat then t else group_text g rest
  end.

Definition expand (t : list titem) (cs : caps) : str :=
  flat_map (fun it => match it with
                      | TLit c => [c]
                      | TGroup g => group_text g cs
                      end) t.

(** *** Substitution

    [scan] walks the text from left to right.  Where a match starts, its
    expansion is emitted and the [skip] characters it covers are passed
    over; elsewhere the character is copied.  Patterns that match the
    empty string are left out of the model. *)

Fixpoint scan (p : compiled) (t : list titem) (s : str) (skip : nat)
    : outcome str :=
  match s with
  | [] =>
      match match_here p [] with
      | Some _ => Unmodelled
      | None => Returns []
      end
  | c :: s' =>
      match skip with
      | S n => scan p t s' n
      | 0 =>
          match match_here p s with
          | Some (rest, cs) =>
              match length s - length rest with
              | 0 => Unmodelled
              | S n => omap (app (expand t cs)) (scan p t s' n)
              end
          | None => omap (cons c) (scan p t s' 0)
          end
      end
  end.

(** [re.sub(pattern, repl, text)] *)
Definition sub (pattern repl text : str) : outcome str :=
  p <- compile pattern ;;
  t <- compile_template (c_names p) repl ;;
  scan p t text 0.

End Re.

(** ** The program *)

(** [patterns['extract']] *)
Definition patterns_extract (fields : list str) (separator : str) : str :=
  py "(?P<field>" ++ join (py "|") fields ++ py ")=[^" ++ separator ++ py "]*".

(** [patterns['replace']] *)
Definition patterns_replace (redaction : str) : str :=
  py "\g<field>=" ++ redaction.

Definition PII_FIELDS : list str :=
  [py "name"; py "email"; py "phone"; py "ssn"; py "password"].

Definition filter_datum (fields : list str) (redaction message separator : str)
    : outcome str :=
  Re.sub (patterns_extract fields separator) (patterns_replace redaction) message.

(** The attributes of a [logging.LogRecord] that [FORMAT] uses, as the
    base formatter has them when it fills the template: [message] is
    [record.getMessage()], [asctime] the formatted time. *)
Record LogRecord : Type := {
  name : str;
  levelname : str;
  asctime : str;
  message : str
}.

Record RedactingFormatter : Type := {
  fields : list str
}.

Definition REDACTION : str := py "***".
Definition SEPARATOR : str := py ";".

(** What [FORMAT] puts before the message:
    [FORMAT = "[HOLBERTON] %(name)s %(levelname)s %(asctime)-15s: %(message)s"]. *)
Definition envelope (record : LogRecord) : str :=
  py "[HOLBERTON] " ++ name record ++ py " " ++ levelname record ++ py " "
  ++ ljust 15 (asctime record) ++ py ": ".

(** The line [logging.Formatter.format] makes for [FORMAT] once the message
    is formed, on a record without exception or stack information: the
    template filled with the attributes.  [base_format] below is the whole
    of [logging.Formatter.format], from [record.msg] and [record.args]. *)
Definition Formatter_format (record : LogRecord) : str :=
  envelope record ++ message record.

(** [RedactingFormatter.format], on the attributes of a record whose
    message is formed; [format_event] below is the method on the record as
    the logger makes it. *)
Definition format (self : RedactingFormatter) (record : LogRecord) : outcome str :=
  let msg := Formatter_format record in
  let txt := filter_datum (fields self) REDACTION msg SEPARATOR in
  txt.

(** ** The record as the logger makes it

    [RedactingFormatter.format] starts with [super().format(record)].
    Before the envelope is filled, [logging.Formatter.format] forms the
    message from [record.msg] and [record.args], which can raise; after it,
    it appends the text of the exception and of the stack, when the record
    carries them. *)

Record Event : Type := {
  ev_name : str;
  ev_levelname : str;
  ev_asctime : str;
  ev_msg : str;           (* [record.msg] *)
  ev_args : list str;     (* [record.args], a tuple of strings *)
  ev_exc_text : str;      (* the exception text, empty when there is none *)
  ev_stack_info : str     (* the stack text, empty when there is none *)
}.

(** [s % args] for a tuple of strings.  [%s] takes the next argument,
    [%%] is a percent sign, [%d] does not accept a string; too few or too
    many arguments raise [TypeError].  Other conversions are left out of
    the model. *)
Fixpoint percent (s : str) (args : list str) : outcome str :=
  match s with
  | [] =>
      match args with
      | [] => Returns []
      | _ :: _ => Raises TypeError         (* not all arguments converted *)
      end
  | c :: s' =>
      if c =? "%" then
        match s' with
        | [] => Unmodelled                 (* incomplete format *)
        | k :: s'' =>
            if k =? "%" then omap (cons "%") (percent s'' args)
            else if k =? "s" then
              match args with
              | [] => Raises TypeError     (* not enough arguments *)
              | a :: rest => omap (app a) (percent s'' rest)
              end
            else if k =? "d" then Raises TypeError
            else Unmodelled
        end
      else omap (cons c) (percent s' args)
  end.

(** [record.getMessage()]: the message is formatted only when there are
    arguments. *)
Definition getMessage (record : Event) : outcome str :=
  match ev_args record with
  | [] => Returns (ev_msg record)
  | _ :: _ => percent (ev_msg record) (ev_args record)
  end.

Definition ends_with_newline (s : str) : bool :=
  match rev s with
  | c :: _ => c =? Re.newline
  | [] => false
  end.

(** A block of text goes on a line of its own. *)
Definition append_block (s block : str) : str :=
  match block with
  | [] => s
  | _ :: _ => (if ends_with_newline s then s else s ++ [Re.newline]) ++ block
  end.

(** [logging.Formatter.format(record)], that is [super().format(record)]. *)
Definition base_format (record : Event) : outcome str :=
  message <- getMessage record ;;
  let s := Formatter_format {| name := ev_name record;
                               levelname := ev_levelname record;
                               asctime := ev_asctime record;
                               message := message |} in
  let s := append_block s (ev_exc_text record) in
  let s := append_block s (ev_stack_info record) in
  Returns s.

(** [RedactingFormatter.format] on the record as the logger makes it. *)
Definition format_event (self : RedactingFormatter) (record : Event)
    : outcome str :=
  msg <- base_format record ;;
  let txt := filter_datum (fields self) REDACTION msg SEPARATOR in
  txt.

(** A record whose message has no arguments and that carries neither
    exception nor stack. *)
Definition event_of (record : LogRecord) : Event :=
  {| ev_name := name record; ev_levelname := levelname record;
     ev_asctime := asctime record; ev_msg := message record;
     ev_args := []; ev_exc_text := []; ev_stack_info := [] |}.

(** ** Redaction with names and separator characters read literally

    The transformation the specification describes, written without regular
    expressions: scanning from the left, wherever one of the field names
    followed by an equals sign starts, the value (everything up to the first
    separator character, or the end of the text) is replaced by the token. *)

(** The first field name that, followed by an equals sign, starts [s]. *)
Definition field_at (fields : list str) (s : str) : option str :=
  find (fun f => startswith (f ++ ["="]) s) fields.

Fixpoint value_of (separator : str) (s : str) : str :=
  match s with
  | [] => []
  | c :: s' => if mem c separator then [] else c :: value_of separator s'
  end.

Fixpoint after_value (separator : str) (s : str) : str :=
  match s with
  | [] => []
  | c :: s' => if mem c separator then s else after_value separator s'
  end.

Fixpoint redact_from (fields : list str) (token separator : str)
    (s : str) (skip : nat) : str :=
  match s with
  | [] => []
  | c :: s' =>
      match skip with
      | S n => redact_from fields token separator s' n
      | 0 =>
          match field_at fields s with
          | Some f =>
              f ++ ["="] ++ token
                ++ redact_from fields token separator s'
                     (length f
                      + length (value_of separator (skipn (length f + 1) s)))
          | None => c :: redact_from fields token separator s' 0
          end
      end
  end.

Definition redact (fields : list str) (token separator : str) (s : str) : str :=
  redact_from fields token separator s 0.

(** The text before the first equals sign of [s], if there is one. *)
Fixpoint key (s : str) : option str :=
  match s with
  | [] => None
  | c :: s' => if c =? "=" then Some [] else option_map (cons c) (key s')
  end.

(** *** Inputs on which the regular expression is the literal reading *)

(** No character of the name is special in a pattern. *)
Definition plain_name (f : str) : bool :=
  forallb (fun c => negb (Re.special c)) f.

(** No character of the separator is special inside a character set. *)
Definition plain_separator (separator : str) : bool :=
  forallb (fun c => negb (mem c (py "\]-"))) separator.

(** The token holds no backslash, so the template keeps it as it is. *)
Definition plain_token (token : str) : bool := negb (mem "\" token).

Definition no_equals (f : str) : bool := negb (mem "=" f).

(** No character of the token is a separator character. *)
Definition clear_of (separator token : str) : bool :=
  forallb (fun c => negb (mem c separator)) token.

(** The token starts with a character that is neither the equals sign
    nor a character of a field name. *)
Definition foreign_token (F : list str) (token : str) : bool :=
  match token with
  | [] => false
  | t0 :: _ => negb (t0 =? "=") && forallb (fun f => negb (mem t0 f)) F
  end.

(** An empty field list builds the same pattern as one empty name. *)
Definition alternatives (fields : list str) : list str :=
  match fields with
  | [] => [[]]
  | _ => fields
  end.

(** ** The shape of the pattern and template the program builds

    What [Re.compile] and [Re.compile_template] are shown below to return
    on plain inputs, and the reader states passed through on the way. *)

Module Shape.
Import Re.

(** A reader at rest inside a group. *)
Definition at_rest (g : option nat) (alts items : list regex)
    (stack : list frame) (groups : nat) (names : list (str * nat)) : pstate :=
  {| ps_mode := Normal;
     ps_top := {| fr_group := g; fr_alts := alts; fr_seq := items |};
     ps_stack := stack; ps_groups := groups; ps_names := names |}.

Definition in_set_mode (m : mode) (g : option nat) (alts items : list regex)
    (stack : list frame) (groups : nat) (names : list (str * nat)) : pstate :=
  {| ps_mode := m;
     ps_top := {| fr_group := g; fr_alts := alts; fr_seq := items |};
     ps_stack := stack; ps_groups := groups; ps_names := names |}.

(** The literal reading of a name, and of a list of alternatives. *)
Definition lit (f : str) : regex := fold_right Cat Eps (map Chr f).

Fixpoint alts (fields : list str) : regex :=
  match fields with
  | [] => Eps
  | [f] => lit f
  | f :: rest => Alt (lit f) (alts rest)
  end.

Definition extract_regex (F : list str) (sep : str) : regex :=
  Cat (Grp (Some 1) (alts F))
      (Cat (Chr "=") (Cat (Star (Cls true (map SChar sep))) Eps)).

Definition extract_compiled (F : list str) (sep : str) : compiled :=
  {| c_regex := extract_regex F sep;
     c_groups := 1;
     c_names := [(py "field", 1)] |}.

Definition replace_template (T : str) : list titem :=
  [TGroup 1; TLit "="] ++ map TLit T.

(** The names are tried from left to right. *)
Fixpoint try_names (names : list str) (s : str) (cs : caps) (k : cont)
    : option (str * caps) :=
  match names with
  | [] => None
  | f :: rest =>
      match (if startswith f s then k (skipn (length f) s) cs else None) with
      | Some m => Some m
      | None => try_names rest s cs k
      end
  end.

Definition accept : cont := fun s cs => Some (s, cs).

End Shape.

(** ** Occurrences, separators and field lists *)

(** The name [f], followed by an equals sign, occurs somewhere in [s]. *)
Fixpoint occurs (f s : str) : bool :=
  match s with
  | [] => false
  | _ :: s' => startswith (f ++ ["="]) s || occurs f s'
  end.

(** The number of separator characters in [s]. *)
Definition count_in (separator s : str) : nat :=
  length (filter (fun c => mem c separator) s).

Definition str_eqb (a b : str) : bool :=
  if list_eq_dec ascii_dec a b then true else false.

(** Every name of [F] is a name of [G]. *)
Definition subset (F G : list str) : bool :=
  forallb (fun f => existsb (str_eqb f) G) F.

(** No name holds the character [c]. *)
Definition names_without (c : ascii) (F : list str) : bool :=
  forallb (fun f => negb (mem c f)) F.

(** ** The logger

    The part of [logging] that [get_logger] and [main] use.  Loggers are
    shared objects kept by name; a program refers to one by its name.
    Every handler here is a [logging.StreamHandler()] writing to standard
    error, of level NOTSET; its formatter, when set, is a
    [RedactingFormatter]. *)

Module Logging.

Definition NOTSET : nat := 0.
Definition DEBUG : nat := 10.
Definition INFO : nat := 20.
Definition ERROR : nat := 40.

Record Handler : Type := {
  h_level : nat;
  h_formatter : option RedactingFormatter
}.

Record Logger : Type := {
  l_level : nat;
  l_propagate : bool;
  l_handlers : list Handler
}.

Record World : Type := {
  w_loggers : list (str * Logger);   (* the loggers created so far *)
  w_stderr : str                     (* what was written to standard error *)
}.

Fixpoint lookup (nm : str) (ls : list (str * Logger)) : option Logger :=
  match ls with
  | [] => None
  | (n, l) :: rest => if str_eqb nm n then Some l else lookup nm rest
  end.

Fixpoint store (nm : str) (l : Logger) (ls : list (str * Logger))
    : list (str * Logger) :=
  match ls with
  | [] => [(nm, l)]
  | (n, l') :: rest =>
      if str_eqb nm n then (n, l) :: rest else (n, l') :: store nm l rest
  end.

(** A logger as [logging.getLogger] creates it. *)
Definition fresh : Logger :=
  {| l_level := NOTSET; l_propagate := true; l_handlers := [] |}.

Definition the_logger (nm : str) (w : World) : Logger :=
  match lookup nm (w_loggers w) with
  | Some l => l
  | None => fresh
  end.

Definition modify (nm : str) (f : Logger -> Logger) (w : World) : World :=
  {| w_loggers := store nm (f (the_logger nm w)) (w_loggers w);
     w_stderr := w_stderr w |}.

(** [logging.getLogger(name)]: the logger of that name, created if there
    is none. *)
Definition getLogger (nm : str) (w : World) : World * str :=
  (modify nm (fun l => l) w, nm).

Definition write (text : str) (w : World) : World :=
  {| w_loggers := w_loggers w; w_stderr := w_stderr w ++ text |}.

Definition StreamHandler : Handler :=
  {| h_level := NOTSET; h_formatter := None |}.

Definition setFormatter (fmt : RedactingFormatter) (h : Handler) : Handler :=
  {| h_level := h_level h; h_formatter := Some fmt |}.

(** [Handler.format]: without a formatter of its own a handler prints the
    message alone. *)
Definition handler_format (h : Handler) (record : LogRecord) : outcome str :=
  match h_formatter h with
  | Some fmt => format fmt record
  | None => Returns (message record)
  end.

Definition setLevel (nm : str) (level : nat) : World -> World :=
  modify nm (fun l => {| l_level := level; l_propagate := l_propagate l;
                         l_handlers := l_handlers l |}).

Definition set_propagate (nm : str) (b : bool) : World -> World :=
  modify nm (fun l => {| l_level := l_level l; l_propagate := b;
                         l_handlers := l_handlers l |}).

(** A handler built by the caller is a new object, never yet among the
    handlers of the logger: it is appended. *)
Definition addHandler (nm : str) (h : Handler) : World -> World :=
  modify nm (fun l => {| l_level := l_level l; l_propagate := l_propagate l;
                         l_handlers := l_handlers l ++ [h] |}).

(** [StreamHandler.emit]: the formatted record and a newline.  A formatter
    that raises is left out of the model. *)
Definition emit (h : Handler) (levelno : nat) (record : LogRecord) (w : World)
    : outcome World :=
  if (levelno <? h_level h)%nat then Returns w
  else match handler_format h record with
       | Returns line => Returns (write (line ++ [Re.newline]) w)
       | _ => Unmodelled
       end.

Fixpoint emit_all (hs : list Handler) (levelno : nat) (record : LogRecord)
    (w : World) : outcome World :=
  match hs with
  | [] => Returns w
  | h :: rest => w' <- emit h levelno record w ;; emit_all rest levelno record w'
  end.

(** [Logger.log(level, msg)] for a message without arguments; [asctime] is
    the time of the call as the formatter prints it.  A logger whose level
    is NOTSET, that propagates, or that has no handler involves its
    ancestors or the handler of last resort, which are not modelled. *)
Definition log (nm : str) (levelno : nat) (levelname msg asctime : str)
    (w : World) : outcome World :=
  match lookup nm (w_loggers w) with
  | None => Unmodelled
  | Some l =>
      if (l_level l =? NOTSET)%nat then Unmodelled
      else if (levelno <? l_level l)%nat then Returns w
      else if l_propagate l then Unmodelled
      else match l_handlers l with
           | [] => Unmodelled
           | hs => emit_all hs levelno
                     {| name := nm; levelname := levelname;
                        asctime := asctime; message := msg |} w
           end
  end.

Definition debug (nm msg asctime : str) : World -> outcome World :=
  log nm DEBUG (py "DEBUG") msg asctime.

Definition info (nm msg asctime : str) : World -> outcome World :=
  log nm INFO (py "INFO") msg asctime.

Definition error (nm msg asctime : str) : World -> outcome World :=
  log nm ERROR (py "ERROR") msg asctime.

End Logging.

(** [get_logger] *)
Definition get_logger (w : Logging.World) : Logging.World * str :=
  let (w, logger) := Logging.getLogger (py "user_data") w in
  let stream_handler :=
    Logging.setFormatter {| fields := PII_FIELDS |} Logging.StreamHandler in
  let w := Logging.setLevel logger Logging.INFO w in
  let w := Logging.set_propagate logger false w in
  let w := Logging.addHandler logger stream_handler w in
  (w, logger).

(** The handler [get_logger] adds, and the name of its logger. *)
Definition pii_handler : Logging.Handler :=
  Logging.setFormatter {| fields := PII_FIELDS |} Logging.StreamHandler.

Definition user_data : str := py "user_data".

(** ** The database

    The MySQL server is outside the program: [Server] says what it answers.
    An [Error] is a [mysql.connector.Error] with that text. *)

Module MySQL.

Inductive answer (A : Type) : Type :=
| Done (a : A)
| Error (text : str).

Arguments Done {A} a.
Arguments Error {A} text.

Record ConnectArgs : Type := {
  host : str;
  port : nat;
  user : str;
  password : str;
  database : str
}.

Record Server : Type := {
  connect : ConnectArgs -> answer unit;
  (* opening a cursor, executing the query and fetching all rows; each
     value of a row is given by the text the f-string prints for it *)
  fetch : str -> answer (list (list str));
  (* [connection.is_connected()] when the program asks *)
  is_connected : bool
}.

End MySQL.

(** [os.getenv(key, default)] *)
Fixpoint getenv (key default : str) (env : list (str * str)) : str :=
  match env with
  | [] => default
  | (k, v) :: rest => if str_eqb key k then v else getenv key default rest
  end.

(** [get_db]: the connection, when the server accepts it. *)
Definition get_db (env : list (str * str)) (server : MySQL.Server)
    : MySQL.answer MySQL.ConnectArgs :=
  let db_host := getenv (py "PERSONAL_DATA_DB_HOST") (py "localhost") env in
  let db_name := getenv (py "PERSONAL_DATA_DB_NAME") (py "") env in
  let db_user := getenv (py "PERSONAL_DATA_DB_USERNAME") (py "root") env in
  let db_pwd := getenv (py "PERSONAL_DATA_DB_PASSWORD") (py "") env in
  let args := {| MySQL.host := db_host; MySQL.port := 3306;
                 MySQL.user := db_user; MySQL.password := db_pwd;
                 MySQL.database := db_name |} in
  match MySQL.connect server args with
  | MySQL.Done _ => MySQL.Done args
  | MySQL.Error e => MySQL.Error e
  end.

(** ** [main] *)

(** [s.split(c)] for a separator of one character. *)
Fixpoint split (c : ascii) (s : str) : list str :=
  match s with
  | [] => [[]]
  | x :: s' =>
      if x =? c then [] :: split c s'
      else match split c s' with
           | h :: t => (x :: h) :: t
           | [] => [[x]]
           end
  end.

(** The message [main] logs for a row. *)
Definition row_message (columns row : list str) : str :=
  let record := map (fun cv => fst cv ++ py "=" ++ snd cv) (combine columns row) in
  join (py "; ") record ++ py ";".

Inductive exception : Type :=
| UnboundLocalError.

(** How a run of [main] ends. *)
Record Run : Type := {
  r_world : Logging.World;
  r_closed : bool;                 (* [connection.close()] was called *)
  r_raised : option exception      (* the exception [main] ends with *)
}.

(** The loop over the rows; the i-th call of the logger happens at time
    [clock i]. *)
Fixpoint log_rows (logger : str) (columns : list str) (rows : list (list str))
    (clock : nat -> str) (i : nat) (w : Logging.World) : outcome Logging.World :=
  match rows with
  | [] => Returns w
  | row :: rest =>
      w' <- Logging.info logger (row_message columns row) (clock i) w ;;
      log_rows logger columns rest clock (S i) w'
  end.

Definition main (env : list (str * str)) (server : MySQL.Server)
    (clock : nat -> str) (w : Logging.World) : outcome Run :=
  let fields := py "name,email,phone,ssn,password,ip,last_login,user_agent" in
  let columns := split "," fields in
  let query := py "SELECT " ++ fields ++ py " FROM users;" in
  let (w, info_logger) := get_logger w in
  match get_db env server with
  | MySQL.Error e =>
      (* the handler logs; [finally] then reads [connection], which was
         never bound *)
      w <- Logging.error info_logger
             (py "Error connecting to the database: " ++ e) (clock 0) w ;;
      Returns {| r_world := w; r_closed := false;
                 r_raised := Some UnboundLocalError |}
  | MySQL.Done connection =>
      match MySQL.fetch server query with
      | MySQL.Done rows =>
          w <- log_rows info_logger columns rows clock 0 w ;;
          Returns {| r_world := w; r_closed := MySQL.is_connected server;
                     r_raised := None |}
      | MySQL.Error e =>
          w <- Logging.error info_logger
                 (py "Error connecting to the database: " ++ e) (clock 0) w ;;
          Returns {| r_world := w; r_closed := MySQL.is_connected server;
                     r_raised := None |}
      end
  end.

(** What [main] writes for the rows, one line each: the rendered record
    with the literal redaction applied. *)
Definition rendered (levelname msg asctime : str) : str :=
  redact PII_FIELDS REDACTION SEPARATOR
    (Formatter_format {| name := py "user_data"; levelname := levelname;
                         asctime := asctime; message := msg |}).

Fixpoint row_lines (columns : list str) (rows : list (list str))
    (clock : nat -> str) (i : nat) : str :=
  match rows with
  | [] => []
  | row :: rest =>
      rendered (py "INFO") (row_message columns row) (clock i)
      ++ [Re.newline] ++ row_lines columns rest clock (S i)
  end.

(** [spaced P]: whatever ends [P] holds a space, so it is no field name. *)
Definition spaced (P : str) : Prop :=
  forall q1 q2, P = q1 ++ q2 -> q2 <> [] -> mem " " q2 = true.

(** The suffixes of a text, the empty one included. *)
Fixpoint suffixes (s : str) : list str :=
  s :: match s with
       | [] => []
       | _ :: s' => suffixes s'
       end.

(** No suffix of the column name is a listed field name. *)
Definition unlisted (F : list str) (column : str) : bool :=
  forallb (fun q => negb (existsb (str_eqb q) F)) (suffixes column).

(** * Facts about the model *)

(** ** Strings *)

Lemma mem_false_neq (c x : ascii) (s : str) :
  mem c (x :: s) = false -> (c =? x) = false /\ mem c s = false.
Proof.
  unfold mem; simpl. intros H. apply orb_false_elim in H. exact H.
Qed.

Lemma mem_app (c : ascii) (a b : str) : mem c (a ++ b) = mem c a || mem c b.
Proof. unfold mem. apply existsb_app. Qed.

Lemma startswith_app (p s : str) : startswith p (p ++ s) = true.
Proof.
  induction p as [|a p IH]; simpl; [reflexivity|].
  rewrite Ascii.eqb_refl. exact IH.
Qed.

Lemma startswith_split (p s : str) :
  startswith p s = true -> s = p ++ skipn (length p) s.
Proof.
  revert s. induction p as [|a p IH]; intros s H; simpl in *; [reflexivity|].
  destruct s as [|b s]; [discriminate|].
  apply andb_prop in H. destruct H as [Hab Hps].
  apply Ascii.eqb_eq in Hab. subst b. simpl. f_equal. apply IH. exact Hps.
Qed.

Lemma skipn_app_length {A : Type} (a b : list A) : skipn (length a) (a ++ b) = b.
Proof. induction a; simpl; auto. Qed.

Lemma skipn_app_length_succ {A : Type} (a : list A) (x : A) (b : list A) :
  skipn (S (length a)) (a ++ x :: b) = b.
Proof. induction a; simpl; auto. Qed.

Lemma firstn_app_length {A : Type} (a b : list A) : firstn (length a) (a ++ b) = a.
Proof. induction a; simpl; [destruct b|f_equal]; auto. Qed.

(** ** Reading the pattern the program builds *)

Module ReFacts.
Import Re Shape.

Lemma read_app (a b : str) : forall st,
  read st (a ++ b) = (st' <- read st a ;; read st' b).
Proof.
  induction a as [|c a IH]; intros st; simpl; [reflexivity|].
  destruct (step st c); simpl; auto.
Qed.

Lemma read_cons (c : ascii) (s : str) (st : pstate) :
  read st (c :: s) = (st' <- step st c ;; read st' s).
Proof. reflexivity. Qed.

(** Let the reader take one concrete character. *)
Ltac read_one :=
  rewrite read_cons;
  match goal with
  | |- context [step ?st ?c] =>
      let r := eval cbn in (step st c) in change (step st c) with r
  end;
  cbv beta match delta [bind].

Lemma tread_app names (a b : str) : forall st,
  tread names st (a ++ b) = (st' <- tread names st a ;; tread names st' b).
Proof.
  induction a as [|c a IH]; intros st; simpl; [reflexivity|].
  destruct (tstep names st c); simpl; auto.
Qed.

Lemma special_false (c : ascii) :
  special c = false ->
  (c =? "\") = false /\ (c =? "(") = false /\ (c =? ")") = false /\
  (c =? "|") = false /\ (c =? "*") = false /\ (c =? "+") = false /\
  (c =? "?") = false /\ (c =? "[") = false /\ (c =? ".") = false /\
  (c =? "^") = false /\ (c =? "$") = false /\ (c =? "{") = false.
Proof.
  unfold special, SPECIAL_CHARS, mem. simpl. intros H.
  repeat match goal with
         | H : _ || _ = false |- _ => apply orb_false_elim in H; destruct H
         end.
  repeat split; assumption.
Qed.

Lemma step_plain c g A Q stk n nm :
  special c = false ->
  step (at_rest g A Q stk n nm) c = Returns (at_rest g A (Chr c :: Q) stk n nm).
Proof.
  intros H. apply special_false in H.
  destruct H as (H1 & H2 & H3 & H4 & H5 & H6 & H7 & H8 & H9 & H10 & H11 & H12).
  unfold step, step_normal; simpl.
  rewrite H1, H2, H3, H4, H5, H6, H7, H8, H9, H10, H11, H12. reflexivity.
Qed.

Lemma seq_regex_rev (l : list regex) : seq_regex (rev l) = fold_right Cat Eps l.
Proof.
  unfold seq_regex. rewrite <- fold_left_rev_right. rewrite rev_involutive.
  reflexivity.
Qed.

Lemma read_name (f : str) : forall g A Q stk n nm,
  plain_name f = true ->
  read (at_rest g A Q stk n nm) f
  = Returns (at_rest g A (rev (map Chr f) ++ Q) stk n nm).
Proof.
  induction f as [|c f IH]; intros g A Q stk n nm H; simpl; [reflexivity|].
  simpl in H. apply andb_prop in H. destruct H as [Hc Hf].
  apply negb_true_iff in Hc.
  rewrite step_plain by exact Hc. simpl.
  rewrite IH by exact Hf. rewrite <- app_assoc. reflexivity.
Qed.

Lemma read_bar g A Q stk n nm (s : str) :
  read (at_rest g A Q stk n nm) (py "|" ++ s)
  = read (at_rest g (seq_regex Q :: A) [] stk n nm) s.
Proof. reflexivity. Qed.

(** Reading the names joined by bars leaves a frame that closes to the
    alternatives of the names, after those already read. *)
Lemma read_fields (F : list str) : forall g A stk n nm,
  forallb plain_name F = true ->
  exists A' Q',
    read (at_rest g A [] stk n nm) (join (py "|") F)
    = Returns (at_rest g A' Q' stk n nm)
    /\ alt_regex A' (seq_regex Q') = alt_regex A (alts F).
Proof.
  induction F as [|f F IH]; intros g A stk n nm H.
  - exists A, []. split; reflexivity.
  - simpl in H. apply andb_prop in H. destruct H as [Hf HF].
    destruct F as [|f2 F].
    + exists A, (rev (map Chr f) ++ []). split.
      * simpl. apply read_name. exact Hf.
      * rewrite app_nil_r, seq_regex_rev. reflexivity.
    + destruct (IH g (lit f :: A) stk n nm HF) as (A' & Q' & Hread & Hclose).
      exists A', Q'. split.
      * change (join (py "|") (f :: f2 :: F))
          with (f ++ py "|" ++ join (py "|") (f2 :: F)).
        rewrite read_app, read_name by exact Hf.
        cbv beta match delta [bind].
        rewrite read_bar, app_nil_r, seq_regex_rev. exact Hread.
      * rewrite Hclose. reflexivity.
Qed.

Lemma plain_separator_cons (c : ascii) (sep : str) :
  plain_separator (c :: sep) = true ->
  ((c =? "\") = false /\ (c =? "]") = false /\ (c =? "-") = false)
  /\ plain_separator sep = true.
Proof.
  unfold plain_separator. simpl. intros H.
  apply andb_prop in H. destruct H as [Hc HS]. split; [|exact HS].
  apply negb_true_iff in Hc. unfold mem in Hc. simpl in Hc.
  repeat match goal with
         | H : _ || _ = false |- _ => apply orb_false_elim in H; destruct H
         end.
  repeat split; assumption.
Qed.

(** Inside a character set, separator characters are collected one by
    one until the closing bracket. *)
Lemma read_set (sep : str) : forall neg items lo g A Q stk n nm rest,
  plain_separator sep = true ->
  read (in_set_mode (SetHave neg items lo) g A Q stk n nm) (sep ++ py "]" ++ rest)
  = read (at_rest g A
            (Cls neg (rev (rev (map SChar sep) ++ SChar lo :: items)) :: Q)
            stk n nm) rest.
Proof.
  induction sep as [|c sep IH]; intros neg items lo g A Q stk n nm rest H.
  - reflexivity.
  - apply plain_separator_cons in H. destruct H as [(H1 & H2 & H3) HS].
    change ((c :: sep) ++ py "]" ++ rest) with (c :: (sep ++ py "]" ++ rest)).
    rewrite read_cons.
    assert (Hstep : step (in_set_mode (SetHave neg items lo) g A Q stk n nm) c
                    = Returns (in_set_mode (SetHave neg (SChar lo :: items) c)
                                 g A Q stk n nm)).
    { unfold step, step_set_fresh; simpl. rewrite H3, H2, H1. reflexivity. }
    rewrite Hstep. cbv beta match delta [bind].
    rewrite IH by exact HS. simpl. rewrite <- app_assoc. reflexivity.
Qed.

Lemma read_header (s : str) :
  read initial (py "(?P<field>" ++ s)
  = read (at_rest (Some 1) [] [] [ps_top initial] 1 [(py "field", 1)]) s.
Proof. reflexivity. Qed.

Lemma read_middle A Q c (s : str) :
  (c =? "\") = false ->
  read (at_rest (Some 1) A Q [ps_top initial] 1 [(py "field", 1)])
       (py ")=[^" ++ c :: s)
  = read (in_set_mode (SetHave true [] c) None []
            [Chr "="; Grp (Some 1) (alt_regex A (seq_regex Q))]
            [] 1 [(py "field", 1)]) s.
Proof.
  intros H.
  change (py ")=[^" ++ c :: s) with (")" :: "=" :: "[" :: "^" :: c :: s).
  do 4 read_one.
  rewrite read_cons.
  unfold step, step_set_fresh; simpl. rewrite H, andb_false_r. reflexivity.
Qed.

Lemma read_star g A r Q stk n nm :
  is_repeat r = false -> nullable r = false -> captures r = false ->
  read (at_rest g A (r :: Q) stk n nm) (py "*")
  = Returns (at_rest g A (Star r :: Q) stk n nm).
Proof.
  intros H1 H2 H3. change (py "*") with ["*"]. rewrite read_cons.
  unfold step, step_normal, quantify; simpl. rewrite H1, H2, H3. reflexivity.
Qed.

(** The pattern built from names and a separator without special
    characters is read as: a group of literal alternatives, an equals
    sign, and a greedy run of characters outside the separator. *)
Lemma compile_extract (F : list str) (sep : str) :
  forallb plain_name F = true ->
  plain_separator sep = true ->
  sep <> [] ->
  compile (patterns_extract F sep) = Returns (extract_compiled F sep).
Proof.
  intros HF HS Hne. destruct sep as [|c sep]; [congruence|].
  apply plain_separator_cons in HS. destruct HS as [(H1 & H2 & H3) HS].
  unfold compile, patterns_extract.
  rewrite read_header.
  destruct (read_fields F (Some 1) [] [ps_top initial] 1 [(py "field", 1)] HF)
    as (A' & Q' & Hread & Hclose).
  rewrite read_app, Hread. cbv beta match delta [bind].
  change ((c :: sep) ++ py "]*") with (c :: (sep ++ py "]" ++ py "*")).
  rewrite read_middle by exact H1.
  rewrite read_set by exact HS.
  rewrite read_star by reflexivity.
  unfold finish, at_rest, extract_compiled, extract_regex, close_frame; simpl.
  rewrite Hclose. simpl.
  rewrite rev_app_distr, rev_involutive. reflexivity.
Qed.

(** *** The replacement template *)

Lemma tread_plain names (T : str) : forall items,
  plain_token T = true ->
  tread names {| ts_mode := TNormal; ts_items := items |} T
  = Returns {| ts_mode := TNormal; ts_items := rev (map TLit T) ++ items |}.
Proof.
  unfold plain_token.
  induction T as [|c T IH]; intros items H; simpl; [reflexivity|].
  apply negb_true_iff in H. apply mem_false_neq in H. destruct H as [Hc HT].
  rewrite Ascii.eqb_sym in Hc.
  unfold tstep; simpl. rewrite Hc. simpl.
  change (tlit [c] {| ts_mode := TNormal; ts_items := items |})
    with {| ts_mode := TNormal; ts_items := TLit c :: items |}.
  rewrite IH by (apply negb_true_iff; exact HT).
  rewrite <- app_assoc. reflexivity.
Qed.

Lemma compile_replace (T : str) :
  plain_token T = true ->
  compile_template [(py "field", 1)] (patterns_replace T)
  = Returns (replace_template T).
Proof.
  intros H. unfold compile_template, patterns_replace.
  rewrite tread_app.
  change (tread [(py "field", 1)] {| ts_mode := TNormal; ts_items := [] |}
            (py "\g<field>="))
    with (Returns {| ts_mode := TNormal; ts_items := [TLit "="; TGroup 1] |}).
  cbv beta match delta [bind].
  rewrite tread_plain by exact H.
  unfold tfinish, replace_template; simpl.
  rewrite rev_app_distr, rev_involutive. reflexivity.
Qed.

Lemma expand_lits (T : str) cs : expand (map TLit T) cs = T.
Proof. induction T as [|c T IH]; simpl; [reflexivity|]. f_equal. exact IH. Qed.

Lemma expand_replace (T f : str) :
  expand (replace_template T) [(1, f)] = f ++ ["="] ++ T.
Proof.
  unfold replace_template, expand. rewrite flat_map_app. simpl.
  rewrite <- app_assoc. simpl. f_equal. f_equal.
  exact (expand_lits T [(1, f)]).
Qed.

(** *** Matching the pattern *)

Lemma rmatch_lit (f : str) : forall s cs k,
  rmatch (lit f) s cs k
  = if startswith f s then k (skipn (length f) s) cs else None.
Proof.
  induction f as [|c f IH]; intros s cs k; [reflexivity|].
  change (lit (c :: f)) with (Cat (Chr c) (lit f)).
  destruct s as [|x s]; [reflexivity|].
  simpl. rewrite (Ascii.eqb_sym c x).
  destruct (x =? c); [apply IH|reflexivity].
Qed.

Lemma rmatch_alts (F : list str) : forall s cs k,
  rmatch (alts F) s cs k = try_names (alternatives F) s cs k.
Proof.
  induction F as [|f F IH]; intros s cs k.
  - simpl. destruct (k s cs); reflexivity.
  - destruct F as [|f2 F].
    + change (alts [f]) with (lit f). rewrite rmatch_lit. simpl.
      destruct (startswith f s); [destruct (k _ cs)|]; reflexivity.
    + change (alts (f :: f2 :: F)) with (Alt (lit f) (alts (f2 :: F))).
      change (rmatch (Alt (lit f) (alts (f2 :: F))) s cs k)
        with (match rmatch (lit f) s cs k with
              | Some m => Some m
              | None => rmatch (alts (f2 :: F)) s cs k
              end).
      rewrite rmatch_lit, IH. reflexivity.
Qed.

Lemma in_set_chars (x : ascii) (sep : str) : in_set x (map SChar sep) = mem x sep.
Proof.
  unfold in_set, mem. induction sep as [|c sep IH]; simpl; [reflexivity|].
  rewrite IH. reflexivity.
Qed.

(** Against a continuation that accepts, the greedy run stops at the
    first separator character. *)
Lemma star_value (sep : str) (k : cont) :
  (forall s cs, k s cs = Some (s, cs)) ->
  forall n s cs, length s <= n ->
  star_loop (rmatch (Cls true (map SChar sep))) k n s cs
  = Some (after_value sep s, cs).
Proof.
  intros Hk. induction n as [|n IH]; intros s cs Hlen.
  - destruct s; [|simpl in Hlen; lia]. simpl. apply Hk.
  - destruct s as [|x s]; simpl; [apply Hk|].
    rewrite in_set_chars. destruct (mem x sep); simpl.
    + apply Hk.
    + rewrite IH by (simpl in Hlen; lia). reflexivity.
Qed.

Lemma rmatch_tail (sep : str) (s : str) (cs : caps) :
  rmatch (Cat (Chr "=") (Cat (Star (Cls true (map SChar sep))) Eps)) s cs accept
  = match s with
    | x :: r => if x =? "=" then Some (after_value sep r, cs) else None
    | [] => None
    end.
Proof.
  destruct s as [|x r]; [reflexivity|].
  simpl. destruct (x =? "="); [|reflexivity].
  apply star_value; [reflexivity|lia].
Qed.

Lemma startswith_eq (f s : str) :
  startswith (f ++ ["="]) s
  = startswith f s
    && match skipn (length f) s with
       | x :: _ => x =? "="
       | [] => false
       end.
Proof.
  revert s. induction f as [|c f IH]; intros s.
  - destruct s as [|x s]; [reflexivity|].
    cbn [app length skipn startswith andb]. rewrite andb_true_r.
    apply Ascii.eqb_sym.
  - destruct s as [|x s]; [reflexivity|].
    cbn [app length skipn startswith]. rewrite IH.
    rewrite andb_assoc. reflexivity.
Qed.

Lemma try_names_field (sep : str) (s : str) (k : cont) :
  (forall s' cs',
     k s' cs' = match s' with
                | x :: r =>
                    if x =? "="
                    then Some (after_value sep r,
                               (1, firstn (length s - length s') s) :: cs')
                    else None
                | [] => None
                end) ->
  forall names,
  try_names names s [] k
  = match field_at names s with
    | Some f => Some (after_value sep (skipn (length f + 1) s), [(1, f)])
    | None => None
    end.
Proof.
  intros Hk. unfold field_at.
  induction names as [|f names IH]; [reflexivity|].
  simpl. rewrite startswith_eq.
  destruct (startswith f s) eqn:Hf; simpl; [|exact IH].
  rewrite Hk.
  pose proof (startswith_split f s Hf) as Hs.
  destruct (skipn (length f) s) as [|x r] eqn:Hr; [exact IH|].
  destruct (x =? "="); [|exact IH].
  f_equal. f_equal.
  - rewrite Nat.add_comm. change (1 + length f) with (S (length f)).
    rewrite Hs at 1. rewrite skipn_app_length_succ. reflexivity.
  - f_equal. f_equal.
    assert (Hlen : length s - length (x :: r) = length f).
    { rewrite Hs at 1. rewrite length_app. lia. }
    rewrite Hlen, Hs. apply firstn_app_length.
Qed.

Lemma match_here_extract (F : list str) (sep s : str) :
  match_here (extract_compiled F sep) s
  = match field_at (alternatives F) s with
    | Some f => Some (after_value sep (skipn (length f + 1) s), [(1, f)])
    | None => None
    end.
Proof.
  unfold match_here, extract_compiled, extract_regex. cbn [c_regex].
  change (rmatch (Cat (Grp (Some 1) (alts F)) ?rest) s [] ?k)
    with (rmatch (alts F) s []
            (fun s' cs' =>
               rmatch rest s' ((1, firstn (length s - length s') s) :: cs') k)).
  rewrite rmatch_alts. apply try_names_field.
  intros s' cs'. exact (rmatch_tail sep s' _).
Qed.

End ReFacts.

(** ** The literal reading *)

Lemma field_at_some (names : list str) (s f : str) :
  field_at names s = Some f ->
  In f names /\ s = f ++ ["="] ++ skipn (length f + 1) s.
Proof.
  unfold field_at. intros H. apply find_some in H. destruct H as [Hin Hs].
  split; [exact Hin|].
  apply startswith_split in Hs. rewrite length_app in Hs. simpl in Hs.
  rewrite <- app_assoc in Hs. exact Hs.
Qed.

Lemma field_at_nil (names : list str) : field_at names [] = None.
Proof.
  unfold field_at. induction names as [|f names IH]; [reflexivity|].
  simpl. destruct f; simpl; exact IH.
Qed.

Lemma value_split (sep s : str) : s = value_of sep s ++ after_value sep s.
Proof.
  induction s as [|c s IH]; simpl; [reflexivity|].
  destruct (mem c sep); simpl; [reflexivity|]. f_equal. exact IH.
Qed.

Lemma value_length (sep s : str) :
  length s = length (value_of sep s) + length (after_value sep s).
Proof. rewrite (value_split sep s) at 1. apply length_app. Qed.

(** What a match at the head of [s] covers. *)
Lemma match_length (names : list str) (sep s f : str) :
  field_at names s = Some f ->
  length s - length (after_value sep (skipn (length f + 1) s))
  = S (length f + length (value_of sep (skipn (length f + 1) s))).
Proof.
  intros H. apply field_at_some in H. destruct H as [_ Hs].
  pose proof (value_length sep (skipn (length f + 1) s)) as Hv.
  rewrite Hs at 1. rewrite !length_app. simpl. lia.
Qed.

Lemma scan_extract (F : list str) (T sep : str) : forall s skip,
  Re.scan (Shape.extract_compiled F sep) (Shape.replace_template T) s skip
  = Returns (redact_from (alternatives F) T sep s skip).
Proof.
  induction s as [|c s IH]; intros skip.
  - simpl. rewrite ReFacts.match_here_extract, field_at_nil. reflexivity.
  - destruct skip as [|n]; [|apply IH].
    cbn [Re.scan redact_from].
    rewrite ReFacts.match_here_extract.
    destruct (field_at (alternatives F) (c :: s)) as [f|] eqn:Hf.
    + rewrite (match_length _ sep _ _ Hf).
      rewrite IH. cbv beta match delta [omap bind].
      rewrite ReFacts.expand_replace, <- !app_assoc. reflexivity.
    + rewrite IH. reflexivity.
Qed.

(** On plain inputs the program is the literal reading. *)
Lemma filter_datum_literal (F : list str) (T m sep : str) :
  forallb plain_name F = true ->
  plain_token T = true ->
  plain_separator sep = true ->
  sep <> [] ->
  filter_datum F T m sep = Returns (redact (alternatives F) T sep m).
Proof.
  intros HF HT Hsep Hne. unfold filter_datum, Re.sub.
  rewrite ReFacts.compile_extract by assumption.
  cbv beta match delta [bind].
  change (Re.c_names (Shape.extract_compiled F sep)) with [(py "field", 1)].
  rewrite ReFacts.compile_replace by assumption.
  cbv beta match delta [bind].
  apply scan_extract.
Qed.

Section Literal.

Variable F : list str.
Variables T sep : str.

Lemma redact_nil : redact F T sep [] = [].
Proof. reflexivity. Qed.

Lemma redact_skip (a b : str) :
  redact_from F T sep (a ++ b) (length a) = redact F T sep b.
Proof.
  induction a as [|c a IH]; [reflexivity|].
  simpl. exact IH.
Qed.

Lemma redact_miss (c : ascii) (s : str) :
  field_at F (c :: s) = None -> redact F T sep (c :: s) = c :: redact F T sep s.
Proof. intros H. unfold redact. simpl. rewrite H. reflexivity. Qed.

Lemma redact_hit (s f : str) :
  field_at F s = Some f ->
  redact F T sep s
  = f ++ ["="] ++ T ++ redact F T sep (after_value sep (skipn (length f + 1) s)).
Proof.
  intros H. destruct s as [|c s]; [rewrite field_at_nil in H; discriminate|].
  unfold redact at 1. cbn [redact_from]. rewrite H.
  do 3 f_equal.
  pose proof (field_at_some _ _ _ H) as [_ Hs].
  set (r := skipn (length f + 1) (c :: s)) in *.
  assert (Hcs : s = tl (f ++ ["="] ++ value_of sep r) ++ after_value sep r).
  { rewrite (value_split sep r) in Hs at 1.
    destruct f as [|x f]; simpl in Hs |- *; [congruence|].
    rewrite <- app_assoc. simpl. congruence. }
  assert (Hlen : length f + length (value_of sep r)
                 = length (tl (f ++ ["="] ++ value_of sep r))).
  { destruct f as [|x f]; simpl; [reflexivity|].
    rewrite length_app. simpl. lia. }
  rewrite Hlen. rewrite Hcs at 1. apply redact_skip.
Qed.

Lemma redact_head (c : ascii) (s : str) :
  exists t, redact F T sep (c :: s) = c :: t.
Proof.
  destruct (field_at F (c :: s)) as [f|] eqn:H.
  - rewrite (redact_hit _ _ H).
    apply field_at_some in H. destruct H as [_ Hs].
    destruct f as [|x f]; simpl in Hs |- *.
    + assert (Hc : c = "=") by congruence. subst c. eexists. reflexivity.
    + assert (Hc : c = x) by congruence. subst c. eexists. reflexivity.
  - rewrite (redact_miss _ _ H). eexists. reflexivity.
Qed.

Lemma after_value_stops (s : str) :
  after_value sep (after_value sep s) = after_value sep s.
Proof.
  induction s as [|c s IH]; simpl; [reflexivity|].
  destruct (mem c sep) eqn:Hc; [|exact IH]. simpl. rewrite Hc. reflexivity.
Qed.

Lemma after_value_at_sep (s : str) :
  after_value sep s = []
  \/ exists c r, after_value sep s = c :: r /\ mem c sep = true.
Proof.
  induction s as [|c s IH]; simpl; [left; reflexivity|].
  destruct (mem c sep) eqn:Hc; [|exact IH].
  right. exists c, s. split; [reflexivity|exact Hc].
Qed.

Lemma after_value_token (s : str) :
  clear_of sep T = true -> after_value sep (T ++ s) = after_value sep s.
Proof.
  unfold clear_of. induction T as [|c t IH]; intros H; [reflexivity|].
  simpl in H. apply andb_prop in H. destruct H as [Hc Ht].
  apply negb_true_iff in Hc. simpl. rewrite Hc. apply IH. exact Ht.
Qed.

(** After a redacted value the scan is where it was before: at the
    end of the text or at a separator character. *)
Lemma after_value_redact (s : str) :
  clear_of sep T = true ->
  after_value sep (T ++ redact F T sep (after_value sep s))
  = redact F T sep (after_value sep s).
Proof.
  intros H. rewrite after_value_token by exact H.
  destruct (after_value_at_sep s) as [E|(c & r & E & Hc)]; rewrite E.
  - reflexivity.
  - destruct (redact_head c r) as [t Ht]. rewrite Ht. simpl. rewrite Hc.
    reflexivity.
Qed.

Lemma after_value_shorter (s : str) : length (after_value sep s) <= length s.
Proof. pose proof (value_length sep s). lia. Qed.

Lemma hit_rest_shorter (s f : str) :
  field_at F s = Some f ->
  length (after_value sep (skipn (length f + 1) s)) < length s.
Proof.
  intros H. pose proof (match_length _ sep _ _ H). 
  pose proof (after_value_shorter (skipn (length f + 1) s)).
  pose proof (length_skipn (length f + 1) s). lia.
Qed.

(** *** Names without an equals sign *)

Hypothesis F_no_equals : forallb no_equals F = true.

Lemma key_name (f s : str) :
  no_equals f = true -> key (f ++ ["="] ++ s) = Some f.
Proof.
  unfold no_equals. induction f as [|c f IH]; intros H; [reflexivity|].
  apply negb_true_iff in H. apply mem_false_neq in H. destruct H as [Hc Hf].
  rewrite Ascii.eqb_sym in Hc.
  change ((c :: f) ++ ["="] ++ s) with (c :: (f ++ ["="] ++ s)).
  cbn [key]. rewrite Hc, IH by (apply negb_true_iff; exact Hf). reflexivity.
Qed.

Lemma key_startswith (f : str) : forall s,
  no_equals f = true -> key s = Some f -> startswith (f ++ ["="]) s = true.
Proof.
  unfold no_equals. induction f as [|c f IH]; intros s H K.
  - destruct s as [|x s]; [discriminate|]. cbn [key] in K.
    cbn [app startswith]. destruct (x =? "=") eqn:E.
    + apply Ascii.eqb_eq in E. subst x. reflexivity.
    + destruct (key s); discriminate.
  - apply negb_true_iff in H. apply mem_false_neq in H. destruct H as [Hc Hf].
    destruct s as [|x s]; [discriminate|]. cbn [key] in K.
    destruct (x =? "="); [discriminate|].
    destruct (key s) as [k|] eqn:Ks; [|discriminate].
    simpl in K. injection K as Hx Hk. subst x k.
    cbn [app startswith]. rewrite Ascii.eqb_refl. simpl.
    apply IH; [apply negb_true_iff; exact Hf|exact Ks].
Qed.

Lemma In_no_equals (f : str) : In f F -> no_equals f = true.
Proof.
  intros H. rewrite forallb_forall in F_no_equals. apply F_no_equals. exact H.
Qed.

(** Which name matches at the head of a text depends only on its key. *)
Lemma field_at_key (s s' : str) : key s = key s' -> field_at F s = field_at F s'.
Proof.
  intros K. unfold field_at.
  pose proof In_no_equals as HF. clear F_no_equals.
  induction F as [|f names IH]; [reflexivity|].
  assert (Hf : no_equals f = true) by (apply HF; left; reflexivity).
  assert (E : startswith (f ++ ["="]) s = startswith (f ++ ["="]) s').
  { destruct (startswith (f ++ ["="]) s) eqn:A;
      destruct (startswith (f ++ ["="]) s') eqn:B; try reflexivity.
    - apply startswith_split in A. rewrite <- app_assoc in A.
      rewrite A, key_name in K by exact Hf.
      symmetry in K. apply key_startswith in K; [congruence|exact Hf].
    - apply startswith_split in B. rewrite <- app_assoc in B.
      rewrite B, key_name in K by exact Hf.
      apply key_startswith in K; [congruence|exact Hf]. }
  simpl. rewrite E. destruct (startswith (f ++ ["="]) s'); [reflexivity|].
  apply IH. intros g Hg. apply HF. right. exact Hg.
Qed.

Lemma key_redact (s : str) : key (redact F T sep s) = key s.
Proof.
  induction s as [|c s IH]; [reflexivity|].
  destruct (field_at F (c :: s)) as [f|] eqn:H.
  - rewrite (redact_hit _ _ H).
    pose proof (field_at_some _ _ _ H) as [Hin Hs].
    rewrite Hs at 2. rewrite !key_name by (apply In_no_equals; exact Hin).
    reflexivity.
  - rewrite (redact_miss _ _ H). cbn [key]. rewrite IH. reflexivity.
Qed.

Lemma field_at_redact (s : str) : field_at F (redact F T sep s) = field_at F s.
Proof. apply field_at_key, key_redact. Qed.

Lemma field_at_keyed (s f : str) : field_at F s = Some f -> key s = Some f.
Proof.
  intros H. apply field_at_some in H. destruct H as [Hin Hs].
  rewrite Hs. apply key_name, In_no_equals, Hin.
Qed.

Lemma key_prefix (q s : str) :
  no_equals q = true -> key (q ++ s) = option_map (app q) (key s).
Proof.
  unfold no_equals. induction q as [|c q IH]; intros H.
  - cbn [app]. destruct (key s); reflexivity.
  - apply negb_true_iff in H. apply mem_false_neq in H. destruct H as [Hc Hq].
    rewrite Ascii.eqb_sym in Hc.
    change ((c :: q) ++ s) with (c :: (q ++ s)). cbn [key].
    rewrite Hc, IH by (apply negb_true_iff; exact Hq).
    destruct (key s); reflexivity.
Qed.

(** Text before the first name is copied when no name ends in it. *)
Lemma redact_prefix (P M : str) :
  no_equals P = true ->
  (forall q, q <> [] -> no_equals q = true -> field_at F (q ++ M) = None) ->
  redact F T sep (P ++ M) = P ++ redact F T sep M.
Proof.
  intros HP Hq. induction P as [|c P IH]; [reflexivity|].
  change ((c :: P) ++ M) with (c :: (P ++ M)).
  rewrite redact_miss.
  - simpl. f_equal. apply IH.
    unfold no_equals in *. apply negb_true_iff in HP.
    apply mem_false_neq in HP. apply negb_true_iff. apply HP.
  - apply (Hq (c :: P)); [discriminate|exact HP].
Qed.

Hypothesis T_clear : clear_of sep T = true.

Lemma redact_idempotent_bounded (n : nat) : forall s,
  length s <= n -> redact F T sep (redact F T sep s) = redact F T sep s.
Proof.
  induction n as [|n IH]; intros s Hlen.
  - destruct s; [reflexivity|simpl in Hlen; lia].
  - destruct s as [|c s]; [reflexivity|].
    destruct (field_at F (c :: s)) as [f|] eqn:H.
    + assert (H2 : field_at F (redact F T sep (c :: s)) = Some f)
        by (rewrite field_at_redact; exact H).
      pose proof (redact_hit _ _ H) as E1.
      pose proof (redact_hit _ _ H2) as E2.
      assert (E3 : skipn (length f + 1) (redact F T sep (c :: s))
                   = T ++ redact F T sep
                            (after_value sep (skipn (length f + 1) (c :: s)))).
      { rewrite E1. rewrite Nat.add_1_r.
        exact (skipn_app_length_succ f "=" _). }
      rewrite E2, E3, after_value_redact by exact T_clear.
      rewrite IH; [symmetry; exact E1|].
      pose proof (hit_rest_shorter _ _ H) as Hr. simpl in Hlen, Hr. lia.
    + rewrite (redact_miss _ _ H).
      assert (H2 : field_at F (c :: redact F T sep s) = None).
      { rewrite <- H. apply field_at_key. cbn [key]. rewrite key_redact.
        reflexivity. }
      rewrite (redact_miss _ _ H2). f_equal. apply IH. simpl in Hlen. lia.
Qed.

Lemma redact_idempotent (s : str) : redact F T sep (redact F T sep s) = redact F T sep s.
Proof. apply (redact_idempotent_bounded (length s)). lia. Qed.

End Literal.

(** ** Plain inputs *)

Lemma alternatives_nonempty (F : list str) : F <> [] -> alternatives F = F.
Proof. destruct F; [congruence|reflexivity]. Qed.

Lemma alternatives_no_equals (F : list str) :
  forallb no_equals F = true -> forallb no_equals (alternatives F) = true.
Proof. destruct F; intros H; [reflexivity|exact H]. Qed.

Lemma nonempty_length {A : Type} (l : list A) : 0 < length l -> l <> [].
Proof. destruct l; simpl; [lia|discriminate]. Qed.

Lemma after_value_clear (sep v : str) :
  clear_of sep v = true -> after_value sep v = [].
Proof.
  unfold clear_of. induction v as [|c v IH]; intros H; [reflexivity|].
  simpl in H. apply andb_prop in H. destruct H as [Hc Hv].
  apply negb_true_iff in Hc. simpl. rewrite Hc. apply IH. exact Hv.
Qed.

Lemma after_value_at (sep v : str) (c : ascii) (w : str) :
  clear_of sep v = true -> mem c sep = true ->
  after_value sep (v ++ c :: w) = c :: w.
Proof.
  unfold clear_of. induction v as [|x v IH]; intros H Hc.
  - simpl. rewrite Hc. reflexivity.
  - simpl in H. apply andb_prop in H. destruct H as [Hx Hv].
    apply negb_true_iff in Hx. simpl. rewrite Hx. apply IH; assumption.
Qed.

Lemma startswith_name (f s : str) :
  startswith (f ++ ["="]) (f ++ ["="] ++ s) = true.
Proof. rewrite app_assoc. apply startswith_app. Qed.

Lemma field_at_first (f : str) (names : list str) (s : str) :
  field_at (f :: names) (f ++ ["="] ++ s) = Some f.
Proof.
  unfold field_at. cbn [find]. rewrite startswith_name. reflexivity.
Qed.

(** With names free of equals signs, a name of the list that starts the
    text is the one found. *)
Lemma field_at_member (F : list str) (f s : str) :
  forallb no_equals F = true -> In f F ->
  field_at F (f ++ ["="] ++ s) = Some f.
Proof.
  intros HF Hin.
  destruct (field_at F (f ++ ["="] ++ s)) as [g|] eqn:H.
  - pose proof (field_at_keyed F HF _ _ H) as K.
    rewrite key_name in K; [congruence|].
    rewrite forallb_forall in HF. apply HF. exact Hin.
  - unfold field_at in H. apply (find_none _ _ H) in Hin.
    rewrite startswith_name in Hin. discriminate.
Qed.

Lemma redact_at_name (F : list str) (T sep f s : str) :
  field_at F (f ++ ["="] ++ s) = Some f ->
  redact F T sep (f ++ ["="] ++ s)
  = f ++ ["="] ++ T ++ redact F T sep (after_value sep s).
Proof.
  intros H. rewrite (redact_hit F T sep _ f H).
  rewrite Nat.add_1_r.
  change (f ++ ["="] ++ s) with (f ++ "=" :: s).
  rewrite skipn_app_length_succ. reflexivity.
Qed.

Lemma no_equals_app (a b : str) :
  no_equals (a ++ b) = no_equals a && no_equals b.
Proof. unfold no_equals. rewrite mem_app. apply negb_orb. Qed.

Lemma no_equals_spaces (n : nat) : no_equals (repeat " " n) = true.
Proof. induction n as [|n IH]; [reflexivity|exact IH]. Qed.

Lemma no_equals_envelope (record : LogRecord) :
  no_equals (name record) = true ->
  no_equals (levelname record) = true ->
  no_equals (asctime record) = true ->
  no_equals (envelope record) = true.
Proof.
  intros Hn Hl Ha. unfold envelope, ljust.
  rewrite !no_equals_app, Hn, Hl, Ha, no_equals_spaces. reflexivity.
Qed.

(** No name of [PII_FIELDS] is a longer text that ends in [name]. *)
Lemma ends_in_name (q g : str) :
  In g PII_FIELDS -> g = q ++ py "name" -> q = [].
Proof.
  intros Hin Hg. apply (f_equal (@rev ascii)) in Hg.
  rewrite rev_app_distr in Hg.
  assert (Hq : rev q = []).
  { simpl in Hin.
    destruct Hin as [E|[E|[E|[E|[E|[]]]]]]; subst g; simpl in Hg;
      try discriminate.
    injection Hg as Hq. symmetry. exact Hq. }
  rewrite <- (rev_involutive q), Hq. reflexivity.
Qed.

Lemma startswith_before (p : str) (c : ascii) : forall a b,
  mem c p = false -> startswith p (a ++ c :: b) = startswith p a.
Proof.
  induction p as [|x p IH]; intros a b H; [reflexivity|].
  apply mem_false_neq in H. destruct H as [Hx Hp].
  destruct a as [|y a]; cbn [app startswith].
  - rewrite Ascii.eqb_sym, Hx. reflexivity.
  - rewrite IH by exact Hp. reflexivity.
Qed.

Lemma startswith_longer (p a Y : str) :
  startswith p a = true -> startswith p (a ++ Y) = true.
Proof.
  intros H. apply startswith_split in H. rewrite H, <- app_assoc.
  apply startswith_app.
Qed.

Lemma find_refines {A : Type} (p q : A -> bool) (l : list A) :
  (forall x, In x l -> q x = true -> p x = true) ->
  (forall f, find p l = Some f -> q f = true) ->
  find q l = find p l.
Proof.
  induction l as [|x l IH]; intros Hqp Hhit; [reflexivity|].
  simpl in *. destruct (p x) eqn:Px.
  - rewrite (Hhit x eq_refl). reflexivity.
  - destruct (q x) eqn:Qx.
    + rewrite (Hqp x (or_introl eq_refl) Qx) in Px. discriminate.
    + apply IH; [intros y Hy; apply Hqp; right; exact Hy|exact Hhit].
Qed.

Lemma plain_without_special (c : ascii) (f : str) :
  Re.special c = true -> plain_name f = true -> mem c f = false.
Proof.
  intros Hc. unfold plain_name, mem.
  induction f as [|x f IH]; intros H; [reflexivity|].
  simpl in H. apply andb_prop in H. destruct H as [Hx Hf].
  simpl. rewrite (IH Hf), orb_false_r.
  destruct (c =? x) eqn:E; [|reflexivity].
  apply Ascii.eqb_eq in E. subst x. rewrite Hc in Hx. discriminate.
Qed.

(** ** A token that no field name can reach into

    When the token starts with a character that is neither the equals sign
    nor in any field name, a name that starts the redacted text started
    the text before: the second pass finds the fields of the first. *)

Section Foreign.

Variable F : list str.
Variable t0 : ascii.
Variables T' sep : str.

Hypothesis t0_not_equals : (t0 =? "=") = false.
Hypothesis t0_in_no_name : forallb (fun f => negb (mem t0 f)) F = true.

Lemma foreign_name (f : str) : In f F -> mem t0 (f ++ ["="]) = false.
Proof.
  intros Hin. rewrite forallb_forall in t0_in_no_name.
  apply t0_in_no_name in Hin. apply negb_true_iff in Hin.
  rewrite mem_app, Hin. unfold mem; simpl. rewrite t0_not_equals. reflexivity.
Qed.

Lemma startswith_redact_back (s : str) : forall p,
  mem t0 p = false ->
  startswith p (redact F (t0 :: T') sep s) = true -> startswith p s = true.
Proof.
  induction s as [|c s IH]; intros p Hp H; [exact H|].
  destruct (field_at F (c :: s)) as [f|] eqn:E.
  - rewrite (redact_hit _ _ _ _ _ E) in H.
    pose proof (field_at_some _ _ _ E) as [_ Hs].
    set (R := redact F (t0 :: T') sep
                (after_value sep (skipn (length f + 1) (c :: s)))) in H.
    replace (f ++ ["="] ++ (t0 :: T') ++ R)
      with ((f ++ ["="]) ++ t0 :: (T' ++ R)) in H
      by (rewrite <- app_assoc; reflexivity).
    rewrite startswith_before in H by exact Hp.
    rewrite Hs, app_assoc. apply startswith_longer. exact H.
  - rewrite (redact_miss _ _ _ _ _ E) in H.
    destruct p as [|y p]; [reflexivity|].
    cbn [startswith] in H |- *. apply andb_prop in H. destruct H as [Hy H].
    rewrite Hy. simpl. apply IH; [|exact H].
    apply mem_false_neq in Hp. apply Hp.
Qed.

Lemma field_at_redact_foreign (s : str) :
  field_at F (redact F (t0 :: T') sep s) = field_at F s.
Proof.
  unfold field_at. apply find_refines.
  - intros g Hin H. apply startswith_redact_back; [|exact H].
    apply foreign_name. exact Hin.
  - intros f H. change (field_at F s = Some f) in H.
    rewrite (redact_hit _ _ _ _ _ H). apply startswith_name.
Qed.

Hypothesis T_clear : clear_of sep (t0 :: T') = true.

Lemma redact_idempotent_foreign_bounded (n : nat) : forall s,
  length s <= n ->
  redact F (t0 :: T') sep (redact F (t0 :: T') sep s)
  = redact F (t0 :: T') sep s.
Proof.
  induction n as [|n IH]; intros s Hlen.
  - destruct s; [reflexivity|simpl in Hlen; lia].
  - destruct s as [|c s]; [reflexivity|].
    destruct (field_at F (c :: s)) as [f|] eqn:H.
    + assert (H2 : field_at F (redact F (t0 :: T') sep (c :: s)) = Some f)
        by (rewrite field_at_redact_foreign; exact H).
      pose proof (redact_hit _ (t0 :: T') sep _ _ H) as E1.
      pose proof (redact_hit _ (t0 :: T') sep _ _ H2) as E2.
      assert (E3 : skipn (length f + 1) (redact F (t0 :: T') sep (c :: s))
                   = (t0 :: T')
                     ++ redact F (t0 :: T') sep
                          (after_value sep (skipn (length f + 1) (c :: s)))).
      { rewrite E1. rewrite Nat.add_1_r.
        exact (skipn_app_length_succ f "=" _). }
      rewrite E2, E3, after_value_redact by exact T_clear.
      rewrite IH; [symmetry; exact E1|].
      pose proof (hit_rest_shorter _ sep _ _ H) as Hr. simpl in Hlen, Hr. lia.
    + assert (H2 : field_at F (redact F (t0 :: T') sep (c :: s)) = None)
        by (rewrite field_at_redact_foreign; exact H).
      rewrite (redact_miss _ _ _ _ _ H) in H2 |- *.
      rewrite (redact_miss _ _ _ _ _ H2). f_equal. apply IH.
      simpl in Hlen. lia.
Qed.

End Foreign.

Lemma redact_idempotent_foreign (F : list str) (T sep s : str) :
  foreign_token F T = true ->
  clear_of sep T = true ->
  redact F T sep (redact F T sep s) = redact F T sep s.
Proof.
  intros HT Hc. destruct T as [|t0 T']; [discriminate|].
  unfold foreign_token in HT. apply andb_prop in HT. destruct HT as [H0 HF].
  apply negb_true_iff in H0.
  apply (redact_idempotent_foreign_bounded F t0 T' sep H0 HF Hc (length s)). lia.
Qed.

Lemma foreign_stars (F : list str) :
  forallb plain_name F = true -> foreign_token (alternatives F) REDACTION = true.
Proof.
  intros HF. unfold foreign_token, REDACTION. simpl.
  destruct F as [|f F]; [reflexivity|].
  cbn [alternatives]. apply forallb_forall. intros g Hin.
  rewrite forallb_forall in HF. apply negb_true_iff.
  apply plain_without_special; [reflexivity|]. apply HF. exact Hin.
Qed.

(** What the formatter returns, filtered again, comes back as it is. *)
Lemma format_event_stable (self : RedactingFormatter) (record : Event)
    (out : str) :
  forallb plain_name (fields self) = true ->
  format_event self record = Returns out ->
  filter_datum (fields self) REDACTION out SEPARATOR = Returns out.
Proof.
  intros HF H. unfold format_event in H.
  destruct (base_format record) as [line| |]; try discriminate.
  cbv beta match delta [bind] in H.
  rewrite filter_datum_literal in H by (try assumption; try reflexivity; discriminate).
  injection H as H. subst out.
  rewrite filter_datum_literal by (try assumption; try reflexivity; discriminate).
  f_equal. apply redact_idempotent_foreign; [apply foreign_stars; exact HF|reflexivity].
Qed.

Lemma format_event_of (self : RedactingFormatter) (record : LogRecord) :
  format_event self (event_of record) = format self record.
Proof. destruct record; reflexivity. Qed.

(** * The claims *)

(** ** Worked examples *)

(** C7. Basic redaction: on the message
    [name=Bob;email=bob@x.com;phone=555;ssn=1;password=p], with the five
    fields name, email, phone, ssn and password, the token of three stars
    and the semicolon as separator, [filter_datum] returns exactly
    [name=***;email=***;phone=***;ssn=***;password=***]. *)
Theorem basic_redaction :
  filter_datum [py "name"; py "email"; py "phone"; py "ssn"; py "password"]
    (py "***") (py "name=Bob;email=bob@x.com;phone=555;ssn=1;password=p")
    (py ";")
  = Returns (py "name=***;email=***;phone=***;ssn=***;password=***").
Proof. vm_compute. reflexivity. Qed.

(** C8. Separator boundary: a value that no separator character follows is
    matched up to the end of the text.  For a name without special
    characters and a value free of separator characters,
    [filter_datum [f] T (f=v) sep] is [f=T]; the instance of the claim is
    [password=abc123], which becomes [password=***]. *)
Theorem separator_boundary (f T v sep : str) :
  plain_name f = true ->
  plain_token T = true ->
  plain_separator sep = true ->
  0 < length sep ->
  clear_of sep v = true ->
  filter_datum [f] T (f ++ py "=" ++ v) sep = Returns (f ++ py "=" ++ T).
Proof.
  intros Hf HT Hsep Hlen Hv.
  rewrite filter_datum_literal;
    [|simpl; rewrite Hf; reflexivity|assumption|assumption
     |apply nonempty_length; assumption].
  f_equal. cbn [alternatives].
  change (py "=") with ["="].
  rewrite redact_at_name by apply field_at_first.
  rewrite after_value_clear by exact Hv.
  rewrite redact_nil, app_nil_r. reflexivity.
Qed.

Lemma separator_boundary_password :
  (plain_name (py "password") = true /\ plain_token (py "***") = true
   /\ plain_separator (py ";") = true /\ 0 < length (py ";")
   /\ clear_of (py ";") (py "abc123") = true)
  /\ filter_datum [py "password"] (py "***") (py "password=abc123") (py ";")
     = Returns (py "password=***").
Proof.
  split.
  - repeat split; try reflexivity. simpl; lia.
  - apply (separator_boundary (py "password") (py "***") (py "abc123") (py ";"));
      try reflexivity.
    simpl; lia.
Defined.

(** C9. End to end: a formatter built with the fields name, email, phone,
    ssn and password renders an event whose message is the line of the
    scenario as the envelope followed by the message with these five
    values replaced by three stars; ip, last_login and user_agent pass
    through unchanged.  The logger name, level name and time of the event
    hold no equals sign. *)
Theorem end_to_end_scenario (record : LogRecord) :
  message record
  = py "name=John Doe;email=john@example.com;phone=5551234;ssn=123-45-6789;password=secret;ip=127.0.0.1;last_login=2024-01-01;user_agent=Mozilla" ->
  no_equals (name record) = true ->
  no_equals (levelname record) = true ->
  no_equals (asctime record) = true ->
  format {| fields := [py "name"; py "email"; py "phone"; py "ssn"; py "password"] |}
         record
  = Returns (envelope record
             ++ py "name=***;email=***;phone=***;ssn=***;password=***;ip=127.0.0.1;last_login=2024-01-01;user_agent=Mozilla").
Proof.
  intros Hmsg Hn Hl Ha.
  unfold format, Formatter_format. cbn [fields]. rewrite Hmsg.
  rewrite filter_datum_literal by (try reflexivity; discriminate).
  f_equal. cbn [alternatives].
  rewrite (redact_prefix _ _ _ _ _ (no_equals_envelope record Hn Hl Ha)).
  - apply f_equal. vm_compute. reflexivity.
  - intros q Hq Hqe.
    match goal with
    | |- field_at ?F ?s = None => destruct (field_at F s) as [g|] eqn:H
    end; [|reflexivity].
    exfalso. apply Hq.
    pose proof (field_at_some _ _ _ H) as [Hin _].
    apply field_at_keyed in H; [|reflexivity].
    rewrite key_prefix in H by exact Hqe.
    apply (ends_in_name q g Hin).
    vm_compute key in H. simpl in H. injection H as H. symmetry. exact H.
Qed.

Lemma end_to_end_user_data :
  let record :=
    {| name := py "user_data"; levelname := py "INFO";
       asctime := py "2024-01-01 00:00:00,000";
       message := py "name=John Doe;email=john@example.com;phone=5551234;ssn=123-45-6789;password=secret;ip=127.0.0.1;last_login=2024-01-01;user_agent=Mozilla" |} in
  format {| fields := [py "name"; py "email"; py "phone"; py "ssn"; py "password"] |}
         record
  = Returns (py "[HOLBERTON] user_data INFO 2024-01-01 00:00:00,000: name=***;email=***;phone=***;ssn=***;password=***;ip=127.0.0.1;last_login=2024-01-01;user_agent=Mozilla").
Proof.
  intros record.
  exact (end_to_end_scenario record eq_refl eq_refl eq_refl eq_refl).
Defined.

(** ** Which text a field name matches *)

(** C2, as stated, fails: with the field list holding only [name], the
    input [username=alice] is not returned unchanged; the value is
    redacted, because [name] followed by the equals sign occurs in it. *)
Lemma username_is_redacted :
  filter_datum [py "name"] (py "***") (py "username=alice") (py ";")
  = Returns (py "username=***")
  /\ py "username=***" <> py "username=alice".
Proof. split; [vm_compute; reflexivity|discriminate]. Qed.

(** C2, amended.  A field name is matched wherever it is immediately
    followed by the equals sign, also at the end of a longer name: for a
    name [f] and a text [p] before it, both without equals sign,
    [filter_datum [f] T (p f=v) sep] is [p f=T].  With the field [name],
    [username=alice] becomes [username=***]. *)
Theorem name_matched_at_end_of_longer_name (f T p v sep : str) :
  plain_name f = true ->
  no_equals f = true ->
  no_equals p = true ->
  plain_token T = true ->
  plain_separator sep = true ->
  0 < length sep ->
  clear_of sep v = true ->
  filter_datum [f] T (p ++ f ++ py "=" ++ v) sep
  = Returns (p ++ f ++ py "=" ++ T).
Proof.
  intros Hf Hfe Hp HT Hsep Hlen Hv.
  assert (HF : forallb no_equals [f] = true) by (simpl; rewrite Hfe; reflexivity).
  rewrite filter_datum_literal;
    [|simpl; rewrite Hf; reflexivity|assumption|assumption
     |apply nonempty_length; assumption].
  f_equal. cbn [alternatives]. change (py "=") with ["="].
  rewrite (redact_prefix _ _ _ _ _ Hp).
  - rewrite redact_at_name by apply field_at_first.
    rewrite after_value_clear by exact Hv.
    rewrite redact_nil, app_nil_r. reflexivity.
  - intros q Hq Hqe.
    destruct (field_at [f] (q ++ f ++ ["="] ++ v)) as [g|] eqn:H; [|reflexivity].
    exfalso. apply Hq.
    pose proof (field_at_some _ _ _ H) as [Hin _].
    destruct Hin as [E|[]]. subst g.
    apply (field_at_keyed _ HF) in H.
    rewrite key_prefix, key_name in H by assumption.
    simpl in H. injection H as H.
    apply (f_equal (@length ascii)) in H. rewrite length_app in H.
    destruct q; [reflexivity|simpl in H; lia].
Qed.

Lemma name_matched_in_username :
  filter_datum [py "name"] (py "***") (py "username=alice") (py ";")
  = Returns (py "username=***").
Proof.
  apply (name_matched_at_end_of_longer_name
           (py "name") (py "***") (py "user") (py "alice") (py ";"));
    try reflexivity.
  simpl; lia.
Defined.

(** C3.  With an empty field list the pattern still has its (empty)
    group, so every equals sign starts a match: on [a=b] the program
    returns [a=***], not the message. *)
Theorem empty_field_list_redacts :
  filter_datum [] (py "***") (py "a=b") (py ";") = Returns (py "a=***").
Proof. vm_compute. reflexivity. Qed.

(** C4, as stated, fails: the dot of the field name [a.c] is read as a
    wildcard, so [abc=1] is redacted although [a.c] followed by the equals
    sign does not occur in it. *)
Lemma dot_in_name_is_wildcard :
  filter_datum [py "a.c"] (py "***") (py "abc=1") (py ";")
  = Returns (py "abc=***")
  /\ redact [py "a.c"] (py "***") (py ";") (py "abc=1") = py "abc=1".
Proof. split; vm_compute; reflexivity. Qed.

(** C4, amended.  Field names that hold none of the characters special in
    a pattern are matched literally: with at least one such name, a
    separator without backslash, closing bracket or hyphen, and a token
    without backslash, [filter_datum] is the literal redaction [redact], in
    which only the exact characters of a name followed by the equals sign
    are matched. *)
Theorem plain_names_matched_literally (F : list str) (T m sep : str) :
  0 < length F ->
  forallb plain_name F = true ->
  plain_token T = true ->
  plain_separator sep = true ->
  0 < length sep ->
  filter_datum F T m sep = Returns (redact F T sep m).
Proof.
  intros HF Hplain HT Hsep Hlen.
  rewrite filter_datum_literal by (try assumption; apply nonempty_length; assumption).
  rewrite alternatives_nonempty by (apply nonempty_length; assumption).
  reflexivity.
Qed.

Lemma plain_names_matched_literally_pii :
  filter_datum PII_FIELDS (py "***") (py "nickname=x,surname=Doe;ssn=1") (py ";,")
  = Returns (redact PII_FIELDS (py "***") (py ";,") (py "nickname=x,surname=Doe;ssn=1")).
Proof.
  apply (plain_names_matched_literally PII_FIELDS); try reflexivity; simpl; lia.
Defined.

(** ** Totality *)

(** C5, as stated, fails: the field name [a(b] makes the pattern
    ill-formed and [filter_datum] raises [re.error]. *)
Lemma unbalanced_name_raises :
  filter_datum [py "a(b"] (py "***") (py "a(b=1") (py ";") = Raises ReError.
Proof. vm_compute. reflexivity. Qed.

(** The formatter raises with plain field names too: the base formatter
    forms the message first, and the arguments may not fit it. *)
Lemma unfit_arguments_raise :
  format_event {| fields := PII_FIELDS |}
    {| ev_name := py "user_data"; ev_levelname := py "INFO";
       ev_asctime := py "2024-01-01 00:00:00,000";
       ev_msg := py "name=%d;"; ev_args := [py "Bob"];
       ev_exc_text := []; ev_stack_info := [] |}
  = Raises TypeError.
Proof. vm_compute. reflexivity. Qed.

(** C5, amended.  [filter_datum] returns a string for every message when
    the field names hold no character special in a pattern, the separator
    is not empty and holds no backslash, closing bracket or hyphen, and the
    token holds no backslash.  [RedactingFormatter.format], with such field
    names, returns a string exactly when [record.getMessage()] returns: it
    adds no failure of its own to those of the base formatter, and raises
    when the arguments of the record do not fit its message. *)
Theorem total_on_plain_inputs (F : list str) (T m sep : str) (record : Event) :
  forallb plain_name F = true ->
  plain_token T = true ->
  plain_separator sep = true ->
  0 < length sep ->
  (exists out, filter_datum F T m sep = Returns out)
  /\ ((exists out, format_event {| fields := F |} record = Returns out)
      <-> (exists message, getMessage record = Returns message)).
Proof.
  intros HF HT Hsep Hlen. split.
  - eexists. apply filter_datum_literal;
      try assumption. apply nonempty_length; assumption.
  - unfold format_event, base_format. cbn [fields].
    destruct (getMessage record) as [message| |];
      cbv beta zeta match delta [bind].
    + split; intros _; [exists message; reflexivity|].
      eexists. apply filter_datum_literal; try assumption; try reflexivity.
      discriminate.
    + split; intros [x H]; discriminate.
    + split; intros [x H]; discriminate.
Qed.

Lemma total_on_pii_fields :
  (exists out,
     filter_datum PII_FIELDS (py "***") (py "no fields here") (py ";")
     = Returns out)
  /\ ((exists out,
         format_event {| fields := PII_FIELDS |}
           {| ev_name := py "user_data"; ev_levelname := py "INFO";
              ev_asctime := py "2024-01-01 00:00:00,000";
              ev_msg := py "name=%s; ip=%s;"; ev_args := [py "Bob"; py "::1"];
              ev_exc_text := []; ev_stack_info := [] |}
         = Returns out)
      <-> (exists message,
             getMessage
               {| ev_name := py "user_data"; ev_levelname := py "INFO";
                  ev_asctime := py "2024-01-01 00:00:00,000";
                  ev_msg := py "name=%s; ip=%s;"; ev_args := [py "Bob"; py "::1"];
                  ev_exc_text := []; ev_stack_info := [] |}
             = Returns message)).
Proof.
  apply (total_on_plain_inputs PII_FIELDS (py "***") (py "no fields here") (py ";"));
    try reflexivity.
  simpl; lia.
Defined.

(** ** Idempotence *)

Lemma filter_datum_twice (F : list str) (T m sep : str) :
  forallb plain_name F = true ->
  forallb no_equals F = true ->
  plain_token T = true ->
  clear_of sep T = true ->
  plain_separator sep = true ->
  sep <> [] ->
  exists out,
    filter_datum F T m sep = Returns out
    /\ filter_datum F T out sep = Returns out.
Proof.
  intros HF HFe HT HTc Hsep Hne.
  exists (redact (alternatives F) T sep m). split.
  - apply filter_datum_literal; assumption.
  - rewrite filter_datum_literal by assumption. f_equal.
    apply redact_idempotent; [apply alternatives_no_equals|]; assumption.
Qed.

(** C6, as stated, fails: a token that holds the separator is cut by the
    second pass.  With the field [a], the token [x;y] and the semicolon as
    separator, [a=1] becomes [a=x;y], and that becomes [a=x;y;y]. *)
Lemma token_with_separator_not_idempotent :
  filter_datum [py "a"] (py "x;y") (py "a=1") (py ";") = Returns (py "a=x;y")
  /\ filter_datum [py "a"] (py "x;y") (py "a=x;y") (py ";")
     = Returns (py "a=x;y;y")
  /\ py "a=x;y;y" <> py "a=x;y".
Proof. repeat split; try (vm_compute; reflexivity). discriminate. Qed.

(** C6, amended.  [filter_datum] is idempotent when the field names hold
    no character special in a pattern and no equals sign, the separator is
    not empty and holds no backslash, closing bracket or hyphen, and the
    token holds no backslash and no separator character: the call returns,
    and filtering its result again returns the same result. *)
Theorem filter_datum_idempotent (F : list str) (T m sep : str) :
  forallb plain_name F = true ->
  forallb no_equals F = true ->
  plain_token T = true ->
  clear_of sep T = true ->
  plain_separator sep = true ->
  0 < length sep ->
  exists out,
    filter_datum F T m sep = Returns out
    /\ filter_datum F T out sep = Returns out.
Proof.
  intros HF HFe HT HTc Hsep Hlen.
  apply filter_datum_twice; try assumption. apply nonempty_length; assumption.
Qed.

Lemma filter_datum_idempotent_pii :
  exists out,
    filter_datum PII_FIELDS (py "***") (py "name=Bob;ssn=1;ip=::1") (py ";")
    = Returns out
    /\ filter_datum PII_FIELDS (py "***") out (py ";") = Returns out.
Proof.
  apply (filter_datum_idempotent PII_FIELDS (py "***")
           (py "name=Bob;ssn=1;ip=::1") (py ";"));
    try reflexivity.
  simpl; lia.
Defined.

(** C1, as stated, fails: a formatter whose field names are patterns can
    return a line that a second pass changes.  With the fields [a=...;b]
    and [a], the message [a=1;b=2] is rendered with [a=***;b=2]; in that
    line the first name now matches across the separator, and filtering it
    again gives [a=***;b=***]. *)
Lemma formatter_output_changes_on_second_pass :
  format {| fields := [py "a=...;b"; py "a"] |}
         {| name := py "user_data"; levelname := py "INFO";
            asctime := py "2024-01-01 00:00:00,000";
            message := py "a=1;b=2" |}
  = Returns (py "[HOLBERTON] user_data INFO 2024-01-01 00:00:00,000: a=***;b=2")
  /\ filter_datum [py "a=...;b"; py "a"] REDACTION
       (py "[HOLBERTON] user_data INFO 2024-01-01 00:00:00,000: a=***;b=2")
       SEPARATOR
     = Returns (py "[HOLBERTON] user_data INFO 2024-01-01 00:00:00,000: a=***;b=***").
Proof. split; vm_compute; reflexivity. Qed.

(** C1, amended.  For a formatter whose field names hold no character
    special in a pattern, every line that [RedactingFormatter.format]
    returns is left unchanged by filtering it again with the same fields,
    token and separator; and the formatter does return a line whenever
    [record.getMessage()] returns the message. *)
Theorem formatter_output_is_stable (self : RedactingFormatter) (record : Event) :
  forallb plain_name (fields self) = true ->
  (forall out,
     format_event self record = Returns out ->
     filter_datum (fields self) REDACTION out SEPARATOR = Returns out)
  /\ (forall message,
        getMessage record = Returns message ->
        exists out, format_event self record = Returns out).
Proof.
  intros HF. split.
  - intros out H. exact (format_event_stable self record out HF H).
  - intros message H. unfold format_event, base_format. rewrite H.
    cbv beta zeta match delta [bind].
    eexists. apply filter_datum_literal; try assumption; try reflexivity.
    discriminate.
Qed.

Lemma formatter_output_is_stable_pii :
  format_event {| fields := [py "name"; py "pass=word"] |}
    {| ev_name := py "user_data"; ev_levelname := py "INFO";
       ev_asctime := py "2024-01-01 00:00:00,000";
       ev_msg := py "name=%s; pass=word=%s; ip=::1;";
       ev_args := [py "Bob"; py "s3cret"];
       ev_exc_text := py "Traceback: name=Eve;"; ev_stack_info := [] |}
  = Returns (py "[HOLBERTON] user_data INFO 2024-01-01 00:00:00,000: name=***; pass=word=***; ip=::1;" ++ Re.newline :: py "Traceback: name=***;")
  /\ filter_datum [py "name"; py "pass=word"] REDACTION
       (py "[HOLBERTON] user_data INFO 2024-01-01 00:00:00,000: name=***; pass=word=***; ip=::1;" ++ Re.newline :: py "Traceback: name=***;")
       SEPARATOR
     = Returns (py "[HOLBERTON] user_data INFO 2024-01-01 00:00:00,000: name=***; pass=word=***; ip=::1;" ++ Re.newline :: py "Traceback: name=***;").
Proof.
  split; [vm_compute; reflexivity|].
  apply (proj1 (formatter_output_is_stable
                  {| fields := [py "name"; py "pass=word"] |}
                  {| ev_name := py "user_data"; ev_levelname := py "INFO";
                     ev_asctime := py "2024-01-01 00:00:00,000";
                     ev_msg := py "name=%s; pass=word=%s; ip=::1;";
                     ev_args := [py "Bob"; py "s3cret"];
                     ev_exc_text := py "Traceback: name=Eve;";
                     ev_stack_info := [] |}
                  eq_refl)).
  vm_compute. reflexivity.
Defined.

(** ** Separators of several characters *)

(** C10, as stated, fails: inside the character set a hyphen between two
    characters makes a range.  With the separator [0-9], the value of [id]
    in [id=a-b5c] runs over the hyphen, which is a character of the
    separator, and ends at the digit 5, which is not. *)
Lemma hyphen_in_separator_is_range :
  filter_datum [py "id"] (py "***") (py "id=a-b5c") (py "0-9")
  = Returns (py "id=***5c")
  /\ mem "-" (py "0-9") = true
  /\ mem "5" (py "0-9") = false.
Proof. repeat split; vm_compute; reflexivity. Qed.

(** C10, amended.  A separator of more than one character, none of them a
    backslash, closing bracket or hyphen, is read as a set of characters:
    the value of a field ends at the first character [c] that belongs to
    the separator, whatever follows, and the rest of the message, from [c]
    on, is filtered in turn. *)
Theorem separator_is_character_set (F : list str) (T sep f v : str)
    (c : ascii) (w : str) :
  forallb plain_name F = true ->
  forallb no_equals F = true ->
  In f F ->
  plain_token T = true ->
  plain_separator sep = true ->
  1 < length sep ->
  clear_of sep v = true ->
  mem c sep = true ->
  exists w',
    filter_datum F T (c :: w) sep = Returns w'
    /\ filter_datum F T (f ++ py "=" ++ v ++ c :: w) sep
       = Returns (f ++ py "=" ++ T ++ w').
Proof.
  intros HF HFe Hin HT Hsep Hlen Hv Hc.
  assert (Hne : sep <> []) by (apply nonempty_length; lia).
  assert (HFne : alternatives F = F) by (destruct F; [destruct Hin|reflexivity]).
  exists (redact F T sep (c :: w)). split.
  - rewrite filter_datum_literal, HFne by assumption. reflexivity.
  - rewrite filter_datum_literal, HFne by assumption. f_equal.
    change (py "=") with ["="].
    rewrite redact_at_name by (apply field_at_member; assumption).
    rewrite after_value_at by assumption. reflexivity.
Qed.

Lemma separator_is_character_set_comma_space :
  exists w',
    filter_datum PII_FIELDS (py "***") (py " email=b@x.com, x") (py ", ")
    = Returns w'
    /\ filter_datum PII_FIELDS (py "***")
         (py "name=Bob" ++ " " :: py "email=b@x.com, x") (py ", ")
       = Returns (py "name=***" ++ w').
Proof.
  apply (separator_is_character_set PII_FIELDS (py "***") (py ", ")
           (py "name") (py "Bob") " " (py "email=b@x.com, x"));
    try reflexivity.
  - simpl; auto.
  - simpl; lia.
Defined.

(** * Further properties of the program *)

(** ** Messages in which no field occurs *)

Lemma field_at_has_equals (F : list str) (s f : str) :
  field_at F s = Some f -> mem "=" s = true.
Proof.
  intros H. apply field_at_some in H. destruct H as [_ Hs].
  rewrite Hs, !mem_app. simpl. apply orb_true_r.
Qed.

Lemma redact_no_equals (F : list str) (T sep m : str) :
  no_equals m = true -> redact F T sep m = m.
Proof.
  unfold no_equals. induction m as [|c m IH]; intros H; [reflexivity|].
  apply negb_true_iff in H.
  assert (Hnone : field_at F (c :: m) = None).
  { destruct (field_at F (c :: m)) as [f|] eqn:E; [|reflexivity].
    apply field_at_has_equals in E. congruence. }
  rewrite redact_miss by exact Hnone. f_equal. apply IH.
  apply mem_false_neq in H. apply negb_true_iff. apply H.
Qed.

Lemma field_at_none (F : list str) (s : str) :
  forallb (fun f => negb (startswith (f ++ ["="]) s)) F = true ->
  field_at F s = None.
Proof.
  intros H. unfold field_at.
  destruct (find (fun f => startswith (f ++ ["="]) s) F) as [f|] eqn:E;
    [|reflexivity].
  apply find_some in E. destruct E as [Hin Hs].
  rewrite forallb_forall in H. apply H in Hin. rewrite Hs in Hin. discriminate.
Qed.

Lemma redact_absent (F : list str) (T sep m : str) :
  forallb (fun f => negb (occurs f m)) F = true -> redact F T sep m = m.
Proof.
  induction m as [|c m IH]; intros H; [reflexivity|].
  assert (H1 : forallb (fun f => negb (startswith (f ++ ["="]) (c :: m))) F = true
               /\ forallb (fun f => negb (occurs f m)) F = true).
  { rewrite !forallb_forall in *. split; intros f Hin; apply H in Hin;
      cbn [occurs] in Hin; apply negb_true_iff in Hin;
      apply orb_false_elim in Hin; apply negb_true_iff; apply Hin. }
  destruct H1 as [Hhead Htail].
  rewrite redact_miss by (apply field_at_none; exact Hhead).
  f_equal. apply IH. exact Htail.
Qed.

(** X1.  A message without equals sign is returned unchanged, whatever the
    (plain) field names, the empty field list included. *)
Theorem message_without_equals_unchanged (F : list str) (T m sep : str) :
  forallb plain_name F = true ->
  plain_token T = true ->
  plain_separator sep = true ->
  0 < length sep ->
  no_equals m = true ->
  filter_datum F T m sep = Returns m.
Proof.
  intros HF HT Hsep Hlen Hm.
  rewrite filter_datum_literal by (try assumption; apply nonempty_length; assumption).
  f_equal. apply redact_no_equals. exact Hm.
Qed.

Lemma message_without_equals_unchanged_empty_list :
  filter_datum [] (py "***") (py "user logged in; session 42") (py ";")
  = Returns (py "user logged in; session 42").
Proof.
  apply message_without_equals_unchanged; try reflexivity. simpl; lia.
Defined.

(** X2.  Absent fields produce no match.  For a non-empty list of field
    names without character special in a pattern, a token without
    backslash and a non-empty separator without backslash, closing bracket
    or hyphen: when none of the listed names, followed by an equals sign,
    occurs in the message, the message is returned unchanged. *)
Theorem absent_fields_unchanged (F : list str) (T m sep : str) :
  0 < length F ->
  forallb plain_name F = true ->
  plain_token T = true ->
  plain_separator sep = true ->
  0 < length sep ->
  forallb (fun f => negb (occurs f m)) F = true ->
  filter_datum F T m sep = Returns m.
Proof.
  intros HFne HF HT Hsep Hlen Hm.
  rewrite filter_datum_literal by (try assumption; apply nonempty_length; assumption).
  rewrite alternatives_nonempty by (apply nonempty_length; assumption).
  f_equal. apply redact_absent. exact Hm.
Qed.

Lemma absent_fields_unchanged_ip :
  filter_datum PII_FIELDS (py "***") (py "ip=127.0.0.1;names=2;e-mail=x") (py ";")
  = Returns (py "ip=127.0.0.1;names=2;e-mail=x").
Proof.
  apply absent_fields_unchanged; try reflexivity; simpl; lia.
Defined.

(** ** The order of the field list *)

Lemma str_eqb_eq (a b : str) : str_eqb a b = true -> a = b.
Proof. unfold str_eqb. destruct (list_eq_dec ascii_dec a b); congruence. Qed.

Lemma subset_In (F G : list str) (f : str) :
  subset F G = true -> In f F -> In f G.
Proof.
  unfold subset. rewrite forallb_forall. intros H Hin.
  apply H in Hin. apply existsb_exists in Hin. destruct Hin as (g & Hg & E).
  apply str_eqb_eq in E. subst g. exact Hg.
Qed.

Lemma field_at_subset (F G : list str) (s f : str) :
  forallb no_equals F = true -> forallb no_equals G = true ->
  subset F G = true ->
  field_at F s = Some f -> field_at G s = Some f.
Proof.
  intros HF HG Hsub H.
  pose proof (field_at_some _ _ _ H) as [Hin Hs].
  rewrite Hs. apply field_at_member; [exact HG|].
  apply (subset_In F G); assumption.
Qed.

Lemma field_at_same_names (F G : list str) (s : str) :
  forallb no_equals F = true -> forallb no_equals G = true ->
  subset F G = true -> subset G F = true ->
  field_at F s = field_at G s.
Proof.
  intros HF HG HFG HGF.
  destruct (field_at F s) as [f|] eqn:EF.
  - symmetry. apply (field_at_subset F G); assumption.
  - destruct (field_at G s) as [g|] eqn:EG; [|reflexivity].
    apply (field_at_subset G F) in EG; try assumption. congruence.
Qed.

Lemma redact_same_names (F G : list str) (T sep : str) :
  forallb no_equals F = true -> forallb no_equals G = true ->
  subset F G = true -> subset G F = true ->
  forall s skip, redact_from F T sep s skip = redact_from G T sep s skip.
Proof.
  intros HF HG HFG HGF. induction s as [|c s IH]; intros skip; [reflexivity|].
  destruct skip as [|n]; [|apply IH].
  cbn [redact_from]. rewrite (field_at_same_names F G) by assumption.
  destruct (field_at G (c :: s)); rewrite IH; reflexivity.
Qed.

Lemma subset_alternatives (F G : list str) :
  subset F G = true -> subset G F = true ->
  subset (alternatives F) (alternatives G) = true.
Proof.
  intros HFG HGF. destruct F as [|f F], G as [|g G].
  - reflexivity.
  - simpl in HGF. discriminate.
  - simpl in HFG. discriminate.
  - exact HFG.
Qed.

(** X3.  The order of the field list, and repeated names in it, do not
    matter: two lists of plain names without equals sign that hold the
    same names give the same result on every message. *)
Theorem field_order_irrelevant (F G : list str) (T m sep : str) :
  forallb plain_name F = true ->
  forallb plain_name G = true ->
  forallb no_equals F = true ->
  forallb no_equals G = true ->
  subset F G = true ->
  subset G F = true ->
  plain_token T = true ->
  plain_separator sep = true ->
  0 < length sep ->
  filter_datum F T m sep = filter_datum G T m sep.
Proof.
  intros HF HG HFe HGe HFG HGF HT Hsep Hlen.
  rewrite !filter_datum_literal
    by (try assumption; apply nonempty_length; assumption).
  f_equal. apply redact_same_names;
    try (apply alternatives_no_equals; assumption);
    apply subset_alternatives; assumption.
Qed.

Lemma field_order_irrelevant_pii :
  filter_datum PII_FIELDS (py "***") (py "ssn=1;name=Bob;ip=::1") (py ";")
  = filter_datum [py "password"; py "ssn"; py "ssn"; py "phone"; py "email"; py "name"]
      (py "***") (py "ssn=1;name=Bob;ip=::1") (py ";").
Proof.
  apply field_order_irrelevant; try reflexivity. simpl; lia.
Defined.

(** ** Segments *)

Lemma startswith_length (p s : str) :
  startswith p s = true -> length p <= length s.
Proof.
  intros H. apply startswith_split in H. rewrite H, length_app. lia.
Qed.

Lemma find_agree {A : Type} (p q : A -> bool) (l : list A) :
  (forall x, In x l -> p x = q x) -> find p l = find q l.
Proof.
  induction l as [|x l IH]; intros H; [reflexivity|].
  simpl. rewrite (H x) by (left; reflexivity).
  destruct (q x); [reflexivity|]. apply IH. intros y Hy. apply H. right. exact Hy.
Qed.

Lemma after_value_before (sep : str) (c : ascii) (r b : str) :
  mem c sep = true ->
  after_value sep (r ++ c :: b) = after_value sep r ++ c :: b.
Proof.
  intros Hc. induction r as [|x r IH]; simpl.
  - rewrite Hc. reflexivity.
  - destruct (mem x sep); [reflexivity|exact IH].
Qed.

Section Segments.

Variable F : list str.
Variables T sep : str.
Variable c : ascii.

Hypothesis c_separates : mem c sep = true.
Hypothesis c_not_equals : (c =? "=") = false.
Hypothesis F_without_c : names_without c F = true.

Lemma name_without_c (f : str) : In f F -> mem c (f ++ ["="]) = false.
Proof.
  intros Hin. unfold names_without in F_without_c.
  rewrite forallb_forall in F_without_c. apply F_without_c in Hin.
  apply negb_true_iff in Hin. rewrite mem_app, Hin. unfold mem; simpl.
  rewrite c_not_equals. reflexivity.
Qed.

Lemma field_at_before (a b : str) : field_at F (a ++ c :: b) = field_at F a.
Proof.
  unfold field_at. apply find_agree. intros f Hin.
  apply startswith_before, name_without_c, Hin.
Qed.

Lemma field_at_separator (b : str) : field_at F (c :: b) = None.
Proof.
  change (c :: b) with ([] ++ c :: b).
  rewrite field_at_before. apply field_at_nil.
Qed.

Lemma redact_segments_bounded (m2 : str) (n : nat) : forall m1,
  length m1 <= n ->
  redact F T sep (m1 ++ c :: m2)
  = redact F T sep m1 ++ c :: redact F T sep m2.
Proof.
  induction n as [|n IH]; intros m1 Hlen.
  - destruct m1; [|simpl in Hlen; lia].
    simpl app. rewrite redact_miss by apply field_at_separator. reflexivity.
  - destruct m1 as [|x m1].
    + simpl app. rewrite redact_miss by apply field_at_separator. reflexivity.
    + destruct (field_at F (x :: m1)) as [f|] eqn:H.
      * assert (H2 : field_at F ((x :: m1) ++ c :: m2) = Some f)
          by (rewrite field_at_before; exact H).
        rewrite (redact_hit _ _ _ _ _ H2), (redact_hit _ _ _ _ _ H).
        pose proof (field_at_some _ _ _ H) as [_ Hs].
        assert (Hle : length f + 1 <= length (x :: m1)).
        { apply (f_equal (@length ascii)) in Hs.
          rewrite !length_app in Hs. simpl in Hs |- *. lia. }
        rewrite skipn_app.
        replace (length f + 1 - length (x :: m1)) with 0 by lia.
        cbn [skipn]. rewrite after_value_before by exact c_separates.
        rewrite IH.
        -- rewrite <- !app_assoc. reflexivity.
        -- pose proof (hit_rest_shorter F sep _ _ H). simpl in *. lia.
      * assert (H2 : field_at F ((x :: m1) ++ c :: m2) = None)
          by (rewrite field_at_before; exact H).
        change ((x :: m1) ++ c :: m2) with (x :: (m1 ++ c :: m2)) in *.
        rewrite (redact_miss _ _ _ _ _ H2), (redact_miss _ _ _ _ _ H).
        rewrite IH by (simpl in Hlen; lia). reflexivity.
Qed.

Lemma redact_segments (m1 m2 : str) :
  redact F T sep (m1 ++ c :: m2)
  = redact F T sep m1 ++ c :: redact F T sep m2.
Proof. apply (redact_segments_bounded m2 (length m1)). lia. Qed.

End Segments.

Lemma names_without_alternatives (c : ascii) (F : list str) :
  names_without c F = true -> names_without c (alternatives F) = true.
Proof. destruct F; intros H; [reflexivity|exact H]. Qed.

(** X4.  Segments are redacted one by one.  For field names without
    character special in a pattern, a token without backslash and a
    separator without backslash, closing bracket or hyphen: at a separator
    character [c] other than the equals sign that no field name holds, the
    result for [m1 c m2] is the result for [m1], then [c], then the result
    for [m2].  No match reaches across such a character. *)
Theorem segments_redacted_independently (F : list str) (T sep m1 m2 : str)
    (c : ascii) :
  forallb plain_name F = true ->
  plain_token T = true ->
  plain_separator sep = true ->
  mem c sep = true ->
  (c =? "=") = false ->
  names_without c F = true ->
  exists out1 out2,
    filter_datum F T m1 sep = Returns out1
    /\ filter_datum F T m2 sep = Returns out2
    /\ filter_datum F T (m1 ++ c :: m2) sep = Returns (out1 ++ c :: out2).
Proof.
  intros HF HT Hsep Hc Hce HFc.
  assert (Hne : sep <> []) by (destruct sep; [discriminate|discriminate]).
  exists (redact (alternatives F) T sep m1), (redact (alternatives F) T sep m2).
  rewrite !filter_datum_literal by assumption.
  repeat split. f_equal.
  apply redact_segments; try assumption.
  apply names_without_alternatives. exact HFc.
Qed.

Lemma segments_redacted_independently_semicolon :
  exists out1 out2,
    filter_datum PII_FIELDS (py "***") (py "name=Bob") (py ";") = Returns out1
    /\ filter_datum PII_FIELDS (py "***") (py " ip=::1; ssn=7") (py ";")
       = Returns out2
    /\ filter_datum PII_FIELDS (py "***")
         (py "name=Bob" ++ ";" :: py " ip=::1; ssn=7") (py ";")
       = Returns (out1 ++ ";" :: out2).
Proof.
  apply segments_redacted_independently; reflexivity.
Defined.

(** ** Separator characters are kept *)

Lemma count_in_app (sep a b : str) :
  count_in sep (a ++ b) = count_in sep a + count_in sep b.
Proof. unfold count_in. rewrite filter_app, length_app. reflexivity. Qed.

Lemma count_in_clear (sep s : str) : clear_of sep s = true -> count_in sep s = 0.
Proof.
  unfold clear_of, count_in. induction s as [|x s IH]; intros H; [reflexivity|].
  simpl in H. apply andb_prop in H. destruct H as [Hx Hs].
  apply negb_true_iff in Hx. simpl. rewrite Hx. apply IH. exact Hs.
Qed.

Lemma count_in_value (sep s : str) : count_in sep (value_of sep s) = 0.
Proof.
  unfold count_in. induction s as [|x s IH]; [reflexivity|].
  simpl. destruct (mem x sep) eqn:Hx; [reflexivity|].
  simpl. rewrite Hx. exact IH.
Qed.

Lemma redact_count_bounded (F : list str) (T sep : str) (n : nat) :
  clear_of sep T = true ->
  forall m, length m <= n ->
  count_in sep (redact F T sep m) = count_in sep m.
Proof.
  intros HT. induction n as [|n IH]; intros m Hlen.
  - destruct m; [reflexivity|simpl in Hlen; lia].
  - destruct m as [|x m]; [reflexivity|].
    destruct (field_at F (x :: m)) as [f|] eqn:H.
    + rewrite (redact_hit _ _ _ _ _ H).
      pose proof (field_at_some _ _ _ H) as [Hin Hs].
      pose proof (hit_rest_shorter F sep _ _ H) as Hshort.
      set (r := skipn (length f + 1) (x :: m)) in *.
      assert (Er : count_in sep r = count_in sep (after_value sep r)).
      { rewrite (value_split sep r) at 1.
        rewrite count_in_app, count_in_value. reflexivity. }
      rewrite Hs, !count_in_app, Er.
      rewrite (count_in_clear sep T HT).
      rewrite IH by (simpl in *; lia). lia.
    + rewrite (redact_miss _ _ _ _ _ H).
      change (x :: redact F T sep m) with ([x] ++ redact F T sep m).
      change (x :: m) with ([x] ++ m).
      rewrite !count_in_app, IH by (simpl in Hlen; lia). reflexivity.
Qed.

(** X5.  Redaction keeps the structure of the line.  For field names
    without character special in a pattern and a non-empty separator
    without backslash, closing bracket or hyphen: when the token holds no
    backslash and no separator character, the result has exactly as many
    separator characters as the message. *)
Theorem separators_preserved (F : list str) (T m sep : str) :
  forallb plain_name F = true ->
  plain_token T = true ->
  clear_of sep T = true ->
  plain_separator sep = true ->
  0 < length sep ->
  exists out,
    filter_datum F T m sep = Returns out
    /\ count_in sep out = count_in sep m.
Proof.
  intros HF HT HTc Hsep Hlen.
  exists (redact (alternatives F) T sep m). split.
  - apply filter_datum_literal; try assumption. apply nonempty_length; assumption.
  - apply (redact_count_bounded _ _ _ (length m)); [assumption|lia].
Qed.

Lemma separators_preserved_pii :
  exists out,
    filter_datum PII_FIELDS (py "***") (py "name=a b; ssn=1;ip=::1;") (py "; ")
    = Returns out
    /\ count_in (py "; ") out = count_in (py "; ") (py "name=a b; ssn=1;ip=::1;").
Proof.
  apply separators_preserved; try reflexivity. simpl; lia.
Defined.

(** ** Inputs that make the call raise *)

Module ReErrors.
Import Re Shape ReFacts.

(** With an empty separator the closing bracket is the first character of
    the set, hence a member of it, and the set never ends. *)
Lemma compile_empty_separator (F : list str) :
  forallb plain_name F = true ->
  compile (patterns_extract F []) = Raises ReError.
Proof.
  intros HF. unfold compile, patterns_extract.
  rewrite read_header.
  destruct (read_fields F (Some 1) [] [ps_top initial] 1 [(py "field", 1)] HF)
    as (A' & Q' & Hread & _).
  rewrite read_app, Hread. cbv beta match delta [bind].
  change (py ")=[^" ++ [] ++ py "]*")
    with (")" :: "=" :: "[" :: "^" :: "]" :: "*" :: []).
  do 6 read_one. reflexivity.
Qed.

(** A backslash at the end of the template has nothing to escape. *)
Lemma compile_replace_trailing_backslash (T : str) :
  plain_token T = true ->
  compile_template [(py "field", 1)] (patterns_replace (T ++ ["\"]))
  = Raises ReError.
Proof.
  intros H. unfold compile_template, patterns_replace.
  rewrite tread_app.
  change (tread [(py "field", 1)] {| ts_mode := TNormal; ts_items := [] |}
            (py "\g<field>="))
    with (Returns {| ts_mode := TNormal; ts_items := [TLit "="; TGroup 1] |}).
  cbv beta match delta [bind].
  rewrite tread_app, tread_plain by exact H.
  reflexivity.
Qed.

End ReErrors.

(** X6.  An empty separator makes [filter_datum] raise [re.error], for
    every list of plain field names, every token and every message, also
    one with nothing to redact. *)
Theorem empty_separator_raises (F : list str) (T m : str) :
  forallb plain_name F = true ->
  filter_datum F T m [] = Raises ReError.
Proof.
  intros HF. unfold filter_datum, Re.sub.
  rewrite ReErrors.compile_empty_separator by exact HF. reflexivity.
Qed.

Lemma empty_separator_raises_pii :
  filter_datum PII_FIELDS (py "***") (py "nothing to redact") (py "")
  = Raises ReError.
Proof. apply empty_separator_raises. reflexivity. Defined.

(** X7.  A token made of text without backslash followed by one backslash
    makes [filter_datum] raise [re.error] on every message, also one in
    which no field occurs: the template is read before the message is
    scanned.  (Field names without character special in a pattern; a
    non-empty separator without backslash, closing bracket or hyphen.) *)
Theorem token_ending_in_backslash_raises (F : list str) (T m sep : str) :
  forallb plain_name F = true ->
  plain_token T = true ->
  plain_separator sep = true ->
  0 < length sep ->
  filter_datum F (T ++ py "\") m sep = Raises ReError.
Proof.
  intros HF HT Hsep Hlen. unfold filter_datum, Re.sub.
  rewrite ReFacts.compile_extract
    by (try assumption; apply nonempty_length; assumption).
  cbv beta match delta [bind].
  change (Re.c_names (Shape.extract_compiled F sep)) with [(py "field", 1)].
  change (py "\") with ["\"].
  rewrite ReErrors.compile_replace_trailing_backslash by exact HT.
  reflexivity.
Qed.

Lemma token_ending_in_backslash_raises_pii :
  filter_datum PII_FIELDS (py "C:\") (py "nothing to redact") (py ";")
  = Raises ReError.
Proof.
  apply (token_ending_in_backslash_raises PII_FIELDS (py "C:")); try reflexivity.
  simpl; lia.
Defined.

(** ** The envelope *)

Lemma redact_prefix_suffixes (F : list str) (T sep : str) (P M : str) :
  (forall q1 q2, P = q1 ++ q2 -> q2 <> [] -> field_at F (q2 ++ M) = None) ->
  redact F T sep (P ++ M) = P ++ redact F T sep M.
Proof.
  induction P as [|c P IH]; intros H; [reflexivity|].
  change ((c :: P) ++ M) with (c :: (P ++ M)).
  rewrite redact_miss.
  - simpl. f_equal. apply IH. intros q1 q2 E Hq.
    apply (H (c :: q1) q2); [rewrite E; reflexivity|exact Hq].
  - apply (H [] (c :: P)); [reflexivity|discriminate].
Qed.

Lemma suffix_holds_last (q1 q2 X : str) (a : ascii) :
  q1 ++ q2 = X ++ [a] -> q2 <> [] -> mem a q2 = true.
Proof.
  intros E Hq. apply (f_equal (@rev ascii)) in E.
  rewrite !rev_app_distr in E. simpl in E.
  destruct (rev q2) as [|y l] eqn:R.
  - exfalso. apply Hq. rewrite <- (rev_involutive q2), R. reflexivity.
  - simpl in E. injection E as Ey _. subst y.
    rewrite <- (rev_involutive q2), R. simpl. rewrite mem_app.
    unfold mem at 2. simpl. rewrite Ascii.eqb_refl. apply orb_true_r.
Qed.

Lemma envelope_ends_with_space (record : LogRecord) :
  exists X, envelope record = X ++ [" "].
Proof.
  exists (py "[HOLBERTON] " ++ name record ++ py " " ++ levelname record
          ++ py " " ++ ljust 15 (asctime record) ++ [":"]).
  unfold envelope. rewrite <- !app_assoc. reflexivity.
Qed.

(** A name without equals sign and without space does not end inside the
    envelope or reach from it into the message. *)
Lemma field_at_across_envelope (F : list str) (record : LogRecord) (M : str) :
  forallb no_equals F = true ->
  names_without " " F = true ->
  no_equals (envelope record) = true ->
  forall q1 q2, envelope record = q1 ++ q2 -> q2 <> [] ->
  field_at F (q2 ++ M) = None.
Proof.
  intros HFe HFs Henv q1 q2 E Hq.
  destruct (field_at F (q2 ++ M)) as [g|] eqn:H; [|reflexivity].
  exfalso.
  pose proof (field_at_some _ _ _ H) as [Hin _].
  apply (field_at_keyed F HFe) in H.
  rewrite E, no_equals_app in Henv. apply andb_prop in Henv.
  rewrite key_prefix in H by apply Henv.
  destruct (key M) as [k|]; [|discriminate]. simpl in H. injection H as H.
  destruct (envelope_ends_with_space record) as [X EX].
  rewrite EX in E. symmetry in E.
  pose proof (suffix_holds_last _ _ _ _ E Hq) as Hsp.
  unfold names_without in HFs. rewrite forallb_forall in HFs.
  apply HFs in Hin. apply negb_true_iff in Hin.
  rewrite <- H, mem_app, Hsp in Hin. discriminate.
Qed.

(** X8.  The formatter filters the whole rendered line, but when the field
    names hold no equals sign and no space, and the logger name, level name
    and time of the record hold no equals sign, the envelope comes out
    untouched and the message is redacted as if filtered alone. *)
Theorem envelope_untouched (F : list str) (record : LogRecord) :
  forallb plain_name F = true ->
  forallb no_equals F = true ->
  names_without " " F = true ->
  no_equals (name record) = true ->
  no_equals (levelname record) = true ->
  no_equals (asctime record) = true ->
  exists out,
    filter_datum F REDACTION (message record) SEPARATOR = Returns out
    /\ format {| fields := F |} record = Returns (envelope record ++ out).
Proof.
  intros HF HFe HFs Hn Hl Ha.
  exists (redact (alternatives F) REDACTION SEPARATOR (message record)).
  unfold format, Formatter_format. cbn [fields].
  rewrite !filter_datum_literal by (try assumption; try reflexivity; discriminate).
  split; [reflexivity|]. f_equal.
  apply redact_prefix_suffixes.
  apply field_at_across_envelope.
  - apply alternatives_no_equals. exact HFe.
  - apply names_without_alternatives. exact HFs.
  - apply no_equals_envelope; assumption.
Qed.

Lemma envelope_untouched_pii :
  exists out,
    filter_datum PII_FIELDS REDACTION (py "name=Bob; ip=::1;") SEPARATOR
    = Returns out
    /\ format {| fields := PII_FIELDS |}
              {| name := py "user_data"; levelname := py "INFO";
                 asctime := py "2024-01-01 00:00:00,000";
                 message := py "name=Bob; ip=::1;" |}
       = Returns (py "[HOLBERTON] user_data INFO 2024-01-01 00:00:00,000: " ++ out).
Proof.
  exact (envelope_untouched PII_FIELDS
           {| name := py "user_data"; levelname := py "INFO";
              asctime := py "2024-01-01 00:00:00,000";
              message := py "name=Bob; ip=::1;" |}
           eq_refl eq_refl eq_refl eq_refl eq_refl eq_refl).
Defined.

(** ** The logger of [get_logger] *)

Module LoggingFacts.
Import Logging.

Lemma str_eqb_refl (a : str) : str_eqb a a = true.
Proof. unfold str_eqb. destruct (list_eq_dec ascii_dec a a); congruence. Qed.

Lemma lookup_store (nm : str) (l : Logger) (ls : list (str * Logger)) :
  lookup nm (store nm l ls) = Some l.
Proof.
  induction ls as [|[n l'] ls IH]; simpl.
  - rewrite str_eqb_refl. reflexivity.
  - destruct (str_eqb nm n) eqn:E; simpl; rewrite E; [reflexivity|exact IH].
Qed.

Lemma the_logger_modify (nm : str) (f : Logger -> Logger) (w : World) :
  the_logger nm (modify nm f w) = f (the_logger nm w).
Proof.
  unfold the_logger at 1, modify; cbn [w_loggers]. rewrite lookup_store.
  reflexivity.
Qed.

Lemma lookup_modify (nm : str) (f : Logger -> Logger) (w : World) :
  lookup nm (w_loggers (modify nm f w)) = Some (f (the_logger nm w)).
Proof. unfold modify; cbn [w_loggers]. apply lookup_store. Qed.

(** After [get_logger] the logger is at level INFO, does not propagate,
    and has one handler more than before. *)
Lemma get_logger_logger (w : World) :
  lookup user_data (w_loggers (fst (get_logger w)))
  = Some {| l_level := INFO; l_propagate := false;
            l_handlers := l_handlers (the_logger user_data w) ++ [pii_handler] |}.
Proof.
  unfold get_logger, getLogger, addHandler, set_propagate, setLevel.
  cbn [fst]. rewrite lookup_modify, !the_logger_modify. reflexivity.
Qed.

Lemma get_logger_name (w : World) : snd (get_logger w) = user_data.
Proof. reflexivity. Qed.

Lemma get_logger_stderr (w : World) :
  w_stderr (fst (get_logger w)) = w_stderr w.
Proof. reflexivity. Qed.

Lemma the_logger_lookup (nm : str) (w : World) (l : Logger) :
  lookup nm (w_loggers w) = Some l -> the_logger nm w = l.
Proof. unfold the_logger. intros H. rewrite H. reflexivity. Qed.

Lemma get_logger_iter (n : nat) (w : World) :
  lookup user_data (w_loggers (Nat.iter (S n) (fun w => fst (get_logger w)) w))
  = Some {| l_level := INFO; l_propagate := false;
            l_handlers := l_handlers (the_logger user_data w)
                          ++ repeat pii_handler (S n) |}.
Proof.
  induction n as [|n IH].
  - apply get_logger_logger.
  - change (Nat.iter (S (S n)) (fun w => fst (get_logger w)) w)
      with (fst (get_logger (Nat.iter (S n) (fun w => fst (get_logger w)) w))).
    rewrite get_logger_logger. rewrite (the_logger_lookup _ _ _ IH).
    cbn [l_handlers]. rewrite <- app_assoc.
    change (pii_handler :: repeat pii_handler n) with (repeat pii_handler (S n)).
    rewrite <- (repeat_cons (S n) pii_handler). reflexivity.
Qed.

Lemma get_logger_iter_stderr (n : nat) (w : World) :
  w_stderr (Nat.iter n (fun w => fst (get_logger w)) w) = w_stderr w.
Proof.
  induction n as [|n IH]; [reflexivity|].
  change (Nat.iter (S n) (fun w => fst (get_logger w)) w)
    with (fst (get_logger (Nat.iter n (fun w => fst (get_logger w)) w))).
  rewrite get_logger_stderr. exact IH.
Qed.

(** The formatter of [get_logger] returns the rendered line. *)
Lemma format_pii (levelname msg asctime : str) :
  format {| fields := PII_FIELDS |}
    {| name := user_data; levelname := levelname; asctime := asctime;
       message := msg |}
  = Returns (rendered levelname msg asctime).
Proof.
  unfold format, rendered. cbn [fields].
  apply filter_datum_literal; try reflexivity. discriminate.
Qed.

Lemma write_write (a b : str) (w : World) :
  write b (write a w) = write (a ++ b) w.
Proof. unfold write; simpl. rewrite app_assoc. reflexivity. Qed.

Lemma emit_pii (levelno : nat) (levelname msg asctime : str) (w : World) :
  emit pii_handler levelno
    {| name := user_data; levelname := levelname; asctime := asctime;
       message := msg |} w
  = Returns (write (rendered levelname msg asctime ++ [Re.newline]) w).
Proof.
  unfold emit, handler_format. cbn [pii_handler setFormatter h_level h_formatter StreamHandler].
  rewrite format_pii. unfold NOTSET. rewrite Nat.ltb_irrefl || reflexivity.
Qed.

Lemma emit_all_pii (n : nat) (levelno : nat) (levelname msg asctime : str) :
  forall w,
  emit_all (repeat pii_handler n) levelno
    {| name := user_data; levelname := levelname; asctime := asctime;
       message := msg |} w
  = Returns (write (concat (repeat (rendered levelname msg asctime
                                    ++ [Re.newline]) n)) w).
Proof.
  induction n as [|n IH]; intros w.
  - simpl. unfold write. rewrite app_nil_r. destruct w; reflexivity.
  - cbn [repeat emit_all]. rewrite emit_pii. cbv beta match delta [bind].
    rewrite IH, write_write. reflexivity.
Qed.

(** A call at level INFO or above on a logger that only [get_logger]
    set up: each of its handlers writes the line. *)
Lemma log_pii (n : nat) (levelno : nat) (levelname msg asctime : str)
    (w : World) :
  lookup user_data (w_loggers w)
  = Some {| l_level := INFO; l_propagate := false;
            l_handlers := repeat pii_handler (S n) |} ->
  INFO <= levelno ->
  log user_data levelno levelname msg asctime w
  = Returns (write (concat (repeat (rendered levelname msg asctime
                                    ++ [Re.newline]) (S n))) w).
Proof.
  intros H Hlevel. unfold log. rewrite H. cbn [l_level l_propagate l_handlers].
  change (INFO =? NOTSET)%nat with false. cbv beta match.
  destruct (levelno <? INFO)%nat eqn:E; [apply Nat.ltb_lt in E; lia|].
  change (repeat pii_handler (S n)) with (pii_handler :: repeat pii_handler n).
  cbv beta match.
  change (pii_handler :: repeat pii_handler n) with (repeat pii_handler (S n)).
  apply emit_all_pii.
Qed.

End LoggingFacts.

(** X9.  Every call of [get_logger] adds a handler to the one logger
    named [user_data]: after [n + 1] calls in a process that had no such
    logger, a single [info] call writes its line [n + 1] times. *)
Theorem handlers_accumulate (n : nat) (w : Logging.World) (msg t : str) :
  Logging.lookup user_data (Logging.w_loggers w) = None ->
  exists w',
    Logging.info user_data msg t
      (Nat.iter (S n) (fun w => fst (get_logger w)) w)
    = Returns w'
    /\ Logging.w_stderr w'
       = Logging.w_stderr w
         ++ concat (repeat (rendered (py "INFO") msg t ++ [Re.newline]) (S n)).
Proof.
  intros Hfresh.
  pose proof (LoggingFacts.get_logger_iter n w) as H.
  unfold Logging.the_logger in H. rewrite Hfresh in H. cbn [Logging.l_handlers Logging.fresh app] in H.
  eexists. split.
  - unfold Logging.info. apply (LoggingFacts.log_pii n); [exact H|].
    unfold Logging.INFO. lia.
  - cbn [Logging.write Logging.w_stderr].
    rewrite LoggingFacts.get_logger_iter_stderr. reflexivity.
Qed.

Lemma handlers_accumulate_twice :
  exists w',
    Logging.info user_data (py "name=Bob;") (py "2024-01-01 00:00:00,000")
      (Nat.iter 2 (fun w => fst (get_logger w))
         {| Logging.w_loggers := []; Logging.w_stderr := [] |})
    = Returns w'
    /\ Logging.w_stderr w'
       = [] ++ concat (repeat (rendered (py "INFO") (py "name=Bob;")
                                 (py "2024-01-01 00:00:00,000")
                               ++ [Re.newline]) 2).
Proof.
  apply (handlers_accumulate 1 {| Logging.w_loggers := []; Logging.w_stderr := [] |}).
  reflexivity.
Defined.

(** X10.  The logger of [get_logger] is at level INFO whatever it was
    before: a [debug] call on it writes nothing. *)
Theorem debug_is_dropped (w : Logging.World) (msg t : str) :
  Logging.debug (snd (get_logger w)) msg t (fst (get_logger w))
  = Returns (fst (get_logger w)).
Proof.
  unfold Logging.debug, Logging.log.
  rewrite LoggingFacts.get_logger_name, LoggingFacts.get_logger_logger.
  reflexivity.
Qed.

(** ** Runs of [main] *)

Lemma get_logger_pair (w : Logging.World) :
  get_logger w = (fst (get_logger w), user_data).
Proof. reflexivity. Qed.

Lemma get_logger_fresh (w : Logging.World) :
  Logging.lookup user_data (Logging.w_loggers w) = None ->
  Logging.lookup user_data (Logging.w_loggers (fst (get_logger w)))
  = Some {| Logging.l_level := Logging.INFO; Logging.l_propagate := false;
            Logging.l_handlers := [pii_handler] |}.
Proof.
  intros H. rewrite LoggingFacts.get_logger_logger.
  unfold Logging.the_logger. rewrite H. reflexivity.
Qed.

Lemma log_once (levelno : nat) (levelname msg asctime : str)
    (w : Logging.World) :
  Logging.lookup user_data (Logging.w_loggers w)
  = Some {| Logging.l_level := Logging.INFO; Logging.l_propagate := false;
            Logging.l_handlers := [pii_handler] |} ->
  Logging.INFO <= levelno ->
  Logging.log user_data levelno levelname msg asctime w
  = Returns (Logging.write (rendered levelname msg asctime ++ [Re.newline]) w).
Proof.
  intros H Hlevel. rewrite (LoggingFacts.log_pii 0) by assumption.
  simpl concat. rewrite app_nil_r. reflexivity.
Qed.

Lemma log_rows_once (columns : list str) (clock : nat -> str) :
  forall rows i w,
  Logging.lookup user_data (Logging.w_loggers w)
  = Some {| Logging.l_level := Logging.INFO; Logging.l_propagate := false;
            Logging.l_handlers := [pii_handler] |} ->
  log_rows user_data columns rows clock i w
  = Returns (Logging.write (row_lines columns rows clock i) w).
Proof.
  induction rows as [|row rows IH]; intros i w H.
  - simpl. unfold Logging.write. rewrite app_nil_r. destruct w; reflexivity.
  - cbn [log_rows row_lines]. unfold Logging.info.
    rewrite log_once; [|exact H|unfold Logging.INFO; lia].
    cbv beta match delta [bind].
    rewrite IH by exact H.
    rewrite LoggingFacts.write_write, <- app_assoc. reflexivity.
Qed.

(** X11.  In a process that has no logger named [user_data] yet: when the
    server accepts the connection and answers the query, [main] writes one
    line per row, in the order of the rows, each the rendered record of the
    row's message with the redaction applied; it ends without exception,
    and closes the connection exactly when it is still connected. *)
Theorem main_logs_every_row (env : list (str * str)) (server : MySQL.Server)
    (clock : nat -> str) (w : Logging.World) (args : MySQL.ConnectArgs)
    (rows : list (list str)) :
  Logging.lookup user_data (Logging.w_loggers w) = None ->
  get_db env server = MySQL.Done args ->
  MySQL.fetch server
    (py "SELECT name,email,phone,ssn,password,ip,last_login,user_agent FROM users;")
  = MySQL.Done rows ->
  exists run,
    main env server clock w = Returns run
    /\ r_raised run = None
    /\ r_closed run = MySQL.is_connected server
    /\ Logging.w_stderr (r_world run)
       = Logging.w_stderr w
         ++ row_lines
              [py "name"; py "email"; py "phone"; py "ssn"; py "password";
               py "ip"; py "last_login"; py "user_agent"]
              rows clock 0.
Proof.
  intros Hfresh Hdb Hfetch. unfold main.
  rewrite get_logger_pair. cbv beta iota zeta.
  rewrite Hdb.
  change (py "SELECT " ++ py "name,email,phone,ssn,password,ip,last_login,user_agent"
          ++ py " FROM users;")
    with (py "SELECT name,email,phone,ssn,password,ip,last_login,user_agent FROM users;").
  rewrite Hfetch.
  rewrite log_rows_once by (apply get_logger_fresh; exact Hfresh).
  cbv beta match delta [bind].
  eexists. split; [reflexivity|]. repeat split.
Qed.

(** X12.  In a process that has no logger named [user_data] yet: when the
    connection fails, [main] writes one ERROR line with the text of the
    error, and then ends with [UnboundLocalError]: the [finally] block
    reads [connection], which was never bound.  Nothing is closed. *)
Theorem main_connection_failure (env : list (str * str)) (server : MySQL.Server)
    (clock : nat -> str) (w : Logging.World) (e : str) :
  Logging.lookup user_data (Logging.w_loggers w) = None ->
  get_db env server = MySQL.Error e ->
  exists run,
    main env server clock w = Returns run
    /\ r_raised run = Some UnboundLocalError
    /\ r_closed run = false
    /\ Logging.w_stderr (r_world run)
       = Logging.w_stderr w
         ++ rendered (py "ERROR") (py "Error connecting to the database: " ++ e)
              (clock 0)
         ++ [Re.newline].
Proof.
  intros Hfresh Hdb. unfold main.
  rewrite get_logger_pair. cbv beta iota zeta.
  rewrite Hdb. unfold Logging.error.
  rewrite log_once;
    [|apply get_logger_fresh; exact Hfresh|unfold Logging.INFO, Logging.ERROR; lia].
  cbv beta match delta [bind].
  eexists. split; [reflexivity|]. repeat split.
Qed.

(** X13.  In a process that has no logger named [user_data] yet: when the
    connection is made but the query fails, [main] writes one ERROR line
    with the text of the error and ends without exception; the connection
    is closed exactly when it is still connected. *)
Theorem main_query_failure (env : list (str * str)) (server : MySQL.Server)
    (clock : nat -> str) (w : Logging.World) (args : MySQL.ConnectArgs)
    (e : str) :
  Logging.lookup user_data (Logging.w_loggers w) = None ->
  get_db env server = MySQL.Done args ->
  MySQL.fetch server
    (py "SELECT name,email,phone,ssn,password,ip,last_login,user_agent FROM users;")
  = MySQL.Error e ->
  exists run,
    main env server clock w = Returns run
    /\ r_raised run = None
    /\ r_closed run = MySQL.is_connected server
    /\ Logging.w_stderr (r_world run)
       = Logging.w_stderr w
         ++ rendered (py "ERROR") (py "Error connecting to the database: " ++ e)
              (clock 0)
         ++ [Re.newline].
Proof.
  intros Hfresh Hdb Hfetch. unfold main.
  rewrite get_logger_pair. cbv beta iota zeta.
  rewrite Hdb.
  change (py "SELECT " ++ py "name,email,phone,ssn,password,ip,last_login,user_agent"
          ++ py " FROM users;")
    with (py "SELECT name,email,phone,ssn,password,ip,last_login,user_agent FROM users;").
  rewrite Hfetch. unfold Logging.error.
  rewrite log_once;
    [|apply get_logger_fresh; exact Hfresh|unfold Logging.INFO, Logging.ERROR; lia].
  cbv beta match delta [bind].
  eexists. split; [reflexivity|]. repeat split.
Qed.

Lemma main_logs_every_row_two_rows :
  let server :=
    {| MySQL.connect := fun _ => MySQL.Done tt;
       MySQL.fetch := fun _ =>
         MySQL.Done
           [[py "Bob"; py "b@x.com"; py "555"; py "1"; py "pw"; py "::1";
             py "2024-01-01"; py "Mozilla"];
            [py "Eve"; py "e@x.com"; py "556"; py "2"; py "pw2"; py "::2";
             py "2024-01-02"; py "curl"]];
       MySQL.is_connected := true |} in
  let w := {| Logging.w_loggers := []; Logging.w_stderr := [] |} in
  let clock := fun _ : nat => py "2024-01-01 00:00:00,000" in
  exists run,
    main [] server clock w = Returns run
    /\ r_raised run = None
    /\ r_closed run = true
    /\ Logging.w_stderr (r_world run)
       = py "[HOLBERTON] user_data INFO 2024-01-01 00:00:00,000: name=***; email=***; phone=***; ssn=***; password=***; ip=::1; last_login=2024-01-01; user_agent=Mozilla;"
         ++ [Re.newline]
         ++ py "[HOLBERTON] user_data INFO 2024-01-01 00:00:00,000: name=***; email=***; phone=***; ssn=***; password=***; ip=::2; last_login=2024-01-02; user_agent=curl;"
         ++ [Re.newline].
Proof.
  intros server w clock.
  destruct (main_logs_every_row [] server clock w
              {| MySQL.host := py "localhost"; MySQL.port := 3306;
                 MySQL.user := py "root"; MySQL.password := [];
                 MySQL.database := [] |}
              _ eq_refl eq_refl eq_refl)
    as (run & Hrun & Hraised & Hclosed & Hout).
  exists run. repeat split; assumption.
Defined.

Lemma main_connection_failure_refused :
  let server :=
    {| MySQL.connect := fun _ => MySQL.Error (py "2003: connection refused");
       MySQL.fetch := fun _ => MySQL.Done [];
       MySQL.is_connected := false |} in
  let w := {| Logging.w_loggers := []; Logging.w_stderr := [] |} in
  let clock := fun _ : nat => py "2024-01-01 00:00:00,000" in
  exists run,
    main [] server clock w = Returns run
    /\ r_raised run = Some UnboundLocalError
    /\ r_closed run = false
    /\ Logging.w_stderr (r_world run)
       = py "[HOLBERTON] user_data ERROR 2024-01-01 00:00:00,000: Error connecting to the database: 2003: connection refused"
         ++ [Re.newline].
Proof.
  intros server w clock.
  destruct (main_connection_failure [] server clock w
              (py "2003: connection refused") eq_refl eq_refl)
    as (run & Hrun & Hraised & Hclosed & Hout).
  exists run. repeat split; assumption.
Defined.

Lemma main_query_failure_no_table :
  let server :=
    {| MySQL.connect := fun _ => MySQL.Done tt;
       MySQL.fetch := fun _ => MySQL.Error (py "1146: no table users");
       MySQL.is_connected := true |} in
  let w := {| Logging.w_loggers := []; Logging.w_stderr := [] |} in
  let clock := fun _ : nat => py "2024-01-01 00:00:00,000" in
  exists run,
    main [] server clock w = Returns run
    /\ r_raised run = None
    /\ r_closed run = true
    /\ Logging.w_stderr (r_world run)
       = py "[HOLBERTON] user_data ERROR 2024-01-01 00:00:00,000: Error connecting to the database: 1146: no table users"
         ++ [Re.newline].
Proof.
  intros server w clock.
  destruct (main_query_failure [] server clock w
              {| MySQL.host := py "localhost"; MySQL.port := 3306;
                 MySQL.user := py "root"; MySQL.password := [];
                 MySQL.database := [] |}
              (py "1146: no table users") eq_refl eq_refl eq_refl)
    as (run & Hrun & Hraised & Hclosed & Hout).
  exists run. repeat split; assumption.
Defined.

(** ** The line of a row *)

Section Columns.

Variable F : list str.
Variables T sep : str.

Hypothesis F_no_equals : forallb no_equals F = true.
Hypothesis F_no_space : names_without " " F = true.

Lemma spaced_nil : spaced [].
Proof.
  intros q1 q2 E Hq. symmetry in E. apply app_eq_nil in E.
  destruct E as [_ E]. contradiction.
Qed.

Lemma spaced_space (X : str) : spaced (X ++ [" "]).
Proof. intros q1 q2 E Hq. symmetry in E. exact (suffix_holds_last _ _ _ _ E Hq). Qed.

Lemma name_has_no_space (g : str) : In g F -> mem " " g = false.
Proof.
  intros Hin. unfold names_without in F_no_space.
  rewrite forallb_forall in F_no_space. apply F_no_space in Hin.
  apply negb_true_iff in Hin. exact Hin.
Qed.

Lemma field_at_key_not_listed (s : str) :
  (forall k, key s = Some k -> ~ In k F) -> field_at F s = None.
Proof.
  intros H. destruct (field_at F s) as [g|] eqn:E; [|reflexivity].
  exfalso. pose proof (field_at_some _ _ _ E) as [Hin _].
  apply (field_at_keyed F F_no_equals) in E. exact (H g E Hin).
Qed.

(** Text that holds no equals sign and ends in a space is copied. *)
Lemma redact_gap (P M : str) :
  no_equals P = true -> spaced P ->
  redact F T sep (P ++ M) = P ++ redact F T sep M.
Proof.
  intros HP Hsp. apply redact_prefix_suffixes. intros q1 q2 E Hq.
  apply field_at_key_not_listed. intros k Hk Hin.
  rewrite E, no_equals_app in HP. apply andb_prop in HP.
  rewrite key_prefix in Hk by apply HP.
  destruct (key M) as [k0|]; [|discriminate]. simpl in Hk. injection Hk as Hk.
  apply name_has_no_space in Hin.
  rewrite <- Hk, mem_app, (Hsp q1 q2 E Hq) in Hin. discriminate.
Qed.

(** A listed column: its value is replaced up to the separator. *)
Lemma redact_listed (P f v : str) (c : ascii) (R : str) :
  no_equals P = true -> spaced P ->
  In f F ->
  clear_of sep v = true -> mem c sep = true ->
  redact F T sep (P ++ f ++ ["="] ++ v ++ c :: R)
  = P ++ f ++ ["="] ++ T ++ redact F T sep (c :: R).
Proof.
  intros HP Hsp Hin Hv Hc.
  rewrite redact_gap by assumption.
  rewrite redact_at_name by (apply field_at_member; assumption).
  rewrite after_value_at by assumption. reflexivity.
Qed.

Lemma In_suffixes (s col : str) : (exists l, col = l ++ s) -> In s (suffixes col).
Proof.
  intros [l E]. subst col. induction l as [|x l IH].
  - destruct s; left; reflexivity.
  - right. exact IH.
Qed.

Lemma unlisted_suffix (col s : str) :
  unlisted F col = true -> (exists l, col = l ++ s) -> ~ In s F.
Proof.
  unfold unlisted. intros H Hs Hin. apply In_suffixes in Hs.
  rewrite forallb_forall in H. apply H in Hs. apply negb_true_iff in Hs.
  assert (Hex : existsb (str_eqb s) F = true).
  { apply existsb_exists. exists s. split; [exact Hin|].
    apply LoggingFacts.str_eqb_refl. }
  congruence.
Qed.

Lemma ends_with (q1 q2 Y : str) (a : ascii) :
  q1 ++ q2 = Y ++ [a] -> q2 <> [] -> exists s, q2 = s ++ [a] /\ q1 ++ s = Y.
Proof.
  intros E Hq. destruct (exists_last Hq) as (s & b & Eq). subst q2.
  rewrite app_assoc in E. apply app_inj_tail in E. destruct E as [E Eb].
  subst b. exists s. split; [reflexivity|exact E].
Qed.

(** A column that is not listed: its name and equals sign are copied. *)
Lemma redact_unlisted (P col R : str) :
  no_equals P = true -> spaced P ->
  no_equals col = true -> unlisted F col = true ->
  redact F T sep (P ++ col ++ ["="] ++ R)
  = P ++ col ++ ["="] ++ redact F T sep R.
Proof.
  intros HP Hsp Hcol Hun.
  replace (P ++ col ++ ["="] ++ R) with (((P ++ col) ++ ["="]) ++ R)
    by (rewrite <- !app_assoc; reflexivity).
  replace (P ++ col ++ ["="] ++ redact F T sep R)
    with (((P ++ col) ++ ["="]) ++ redact F T sep R)
    by (rewrite <- !app_assoc; reflexivity).
  apply redact_prefix_suffixes. intros q1 q2 E Hq.
  symmetry in E. destruct (ends_with _ _ _ _ E Hq) as (s & Eq & Es). subst q2.
  apply field_at_key_not_listed. intros k Hk Hin.
  assert (Hs : no_equals s = true).
  { assert (H : no_equals (P ++ col) = true)
      by (rewrite no_equals_app, HP, Hcol; reflexivity).
    rewrite <- Es, no_equals_app in H. apply andb_prop in H. apply H. }
  rewrite <- app_assoc in Hk. rewrite key_name in Hk by exact Hs.
  injection Hk as Hk. subst k.
  apply app_eq_app in Es. destruct Es as [l [[E1 E2]|[E1 E2]]].
  - (* col = l ++ s *)
    apply (unlisted_suffix col s Hun); [exists l; exact E2|exact Hin].
  - (* s = l ++ col, with l ending P *)
    destruct l as [|x l].
    + simpl in E2. subst s.
      apply (unlisted_suffix col col Hun); [exists []; reflexivity|exact Hin].
    + apply name_has_no_space in Hin.
      rewrite E2, mem_app in Hin.
      rewrite (Hsp q1 (x :: l)) in Hin; [discriminate|exact E1|discriminate].
Qed.

Lemma spaced_gap (v : str) : spaced (v ++ [";"; " "]).
Proof.
  replace (v ++ [";"; " "]) with ((v ++ [";"]) ++ [" "])
    by (rewrite <- app_assoc; reflexivity).
  apply spaced_space.
Qed.

Lemma redact_listed_first (f v : str) (c : ascii) (R : str) :
  In f F -> clear_of sep v = true -> mem c sep = true ->
  redact F T sep (f ++ "=" :: v ++ c :: R)
  = f ++ "=" :: T ++ redact F T sep (c :: R).
Proof.
  intros Hin Hv Hc.
  exact (redact_listed [] f v c R eq_refl spaced_nil Hin Hv Hc).
Qed.

Lemma redact_listed_next (f v : str) (c : ascii) (R : str) :
  In f F -> clear_of sep v = true -> mem c sep = true ->
  redact F T sep (";" :: " " :: f ++ "=" :: v ++ c :: R)
  = ";" :: " " :: f ++ "=" :: T ++ redact F T sep (c :: R).
Proof.
  intros Hin Hv Hc.
  exact (redact_listed [";"; " "] f v c R eq_refl (spaced_gap []) Hin Hv Hc).
Qed.

Lemma redact_unlisted_next (v col R : str) :
  no_equals v = true -> no_equals col = true -> unlisted F col = true ->
  redact F T sep (v ++ ";" :: " " :: col ++ "=" :: R)
  = v ++ ";" :: " " :: col ++ "=" :: redact F T sep R.
Proof.
  intros Hv Hcol Hun.
  assert (HP : no_equals (v ++ [";"; " "]) = true)
    by (rewrite no_equals_app, Hv; reflexivity).
  pose proof (redact_unlisted (v ++ [";"; " "]) col R HP (spaced_gap v) Hcol Hun)
    as H.
  rewrite <- !app_assoc in H. exact H.
Qed.

Lemma redact_unlisted_first (col R : str) :
  no_equals col = true -> unlisted F col = true ->
  redact F T sep (";" :: " " :: col ++ "=" :: R)
  = ";" :: " " :: col ++ "=" :: redact F T sep R.
Proof. intros Hcol Hun. exact (redact_unlisted_next [] col R eq_refl Hcol Hun). Qed.

End Columns.

Lemma spaced_envelope (record : LogRecord) : spaced (envelope record).
Proof.
  destruct (envelope_ends_with_space record) as [X EX]. rewrite EX.
  apply spaced_space.
Qed.

(** X14.  The line [main] logs for a row of the table.  When none of the
    five sensitive values holds a semicolon, and neither the three other
    values nor the time hold an equals sign, the line shows three stars
    for name, email, phone, ssn and password, and the values of ip,
    last_login and user_agent as they are.  That [main] joins the pairs
    with a semicolon and a space, while the formatter separates at the
    semicolon alone, changes nothing. *)
Theorem row_line (t v1 v2 v3 v4 v5 v6 v7 v8 : str) :
  no_equals t = true ->
  clear_of SEPARATOR v1 = true ->
  clear_of SEPARATOR v2 = true ->
  clear_of SEPARATOR v3 = true ->
  clear_of SEPARATOR v4 = true ->
  clear_of SEPARATOR v5 = true ->
  no_equals v6 = true ->
  no_equals v7 = true ->
  no_equals v8 = true ->
  let record :=
    {| name := user_data; levelname := py "INFO"; asctime := t;
       message :=
         row_message
           [py "name"; py "email"; py "phone"; py "ssn"; py "password";
            py "ip"; py "last_login"; py "user_agent"]
           [v1; v2; v3; v4; v5; v6; v7; v8] |} in
  format {| fields := PII_FIELDS |} record
  = Returns (envelope record
             ++ py "name=***; email=***; phone=***; ssn=***; password=***; ip="
             ++ v6 ++ py "; last_login=" ++ v7 ++ py "; user_agent=" ++ v8
             ++ py ";").
Proof.
  intros Ht H1 H2 H3 H4 H5 H6 H7 H8 record.
  assert (HFe : forallb no_equals PII_FIELDS = true) by reflexivity.
  assert (HFs : names_without " " PII_FIELDS = true) by reflexivity.
  subst record. rewrite LoggingFacts.format_pii.
  unfold rendered, Formatter_format. cbn [message]. f_equal.
  rewrite (redact_gap PII_FIELDS REDACTION SEPARATOR HFe HFs)
    by (try apply spaced_envelope; apply no_equals_envelope; try reflexivity; exact Ht).
  apply f_equal.
  assert (E : row_message
                [py "name"; py "email"; py "phone"; py "ssn"; py "password";
                 py "ip"; py "last_login"; py "user_agent"]
                [v1; v2; v3; v4; v5; v6; v7; v8]
              = py "name" ++ "=" :: v1 ++ ";" :: " " ::
                py "email" ++ "=" :: v2 ++ ";" :: " " ::
                py "phone" ++ "=" :: v3 ++ ";" :: " " ::
                py "ssn" ++ "=" :: v4 ++ ";" :: " " ::
                py "password" ++ "=" :: v5 ++ ";" :: " " ::
                py "ip" ++ "=" :: v6 ++ ";" :: " " ::
                py "last_login" ++ "=" :: v7 ++ ";" :: " " ::
                py "user_agent" ++ "=" :: v8 ++ [";"]).
  { unfold row_message. cbn [combine map join fst snd].
    rewrite <- !app_assoc. reflexivity. }
  rewrite E.
  rewrite (redact_listed_first PII_FIELDS _ _ HFe HFs)
    by (try assumption; try reflexivity; simpl; tauto).
  do 4 (rewrite (redact_listed_next PII_FIELDS _ _ HFe HFs)
          by (try assumption; try reflexivity; simpl; tauto)).
  rewrite (redact_unlisted_first PII_FIELDS _ _ HFe HFs)
    by reflexivity.
  do 2 (rewrite (redact_unlisted_next PII_FIELDS _ _ HFe HFs)
          by (try assumption; reflexivity)).
  rewrite redact_no_equals
    by (rewrite no_equals_app, H8; reflexivity).
  reflexivity.
Qed.

Lemma row_line_bob :
  format {| fields := PII_FIELDS |}
    {| name := user_data; levelname := py "INFO";
       asctime := py "2024-01-01 00:00:00,000";
       message :=
         row_message
           [py "name"; py "email"; py "phone"; py "ssn"; py "password";
            py "ip"; py "last_login"; py "user_agent"]
           [py "Bob Doe"; py "b=ob@x.com"; py "555 1234"; py "123-45"; py "p=w";
            py "::1"; py "2024-01-01; 12:00"; py "Mozilla/5.0 (X11; Linux)"] |}
  = Returns (py "[HOLBERTON] user_data INFO 2024-01-01 00:00:00,000: name=***; email=***; phone=***; ssn=***; password=***; ip=::1; last_login=2024-01-01; 12:00; user_agent=Mozilla/5.0 (X11; Linux);").
Proof.
  exact (row_line (py "2024-01-01 00:00:00,000")
           (py "Bob Doe") (py "b=ob@x.com") (py "555 1234") (py "123-45")
           (py "p=w") (py "::1") (py "2024-01-01; 12:00")
           (py "Mozilla/5.0 (X11; Linux)")
           eq_refl eq_refl eq_refl eq_refl eq_refl eq_refl eq_refl eq_refl eq_refl).
Defined.
